(** * Relay VM: primitive inliner, bytecode compiler and interpreter

    A shallow embedding of [src/relay/vm/inline_primitives.cc] and
    [src/relay/vm/vm.cc], and the properties of the natural-language
    specification stated over it. *)

From Stdlib Require Import ZArith List String Lia Bool.
From stdpp Require Import base option list gmap strings pretty.

Set Warnings "-register-all".
Set Default Proof Using "Type".


(** ** The intermediate representation consumed by the passes *)

Module IR.

(** A [Var] is the identity of a [VarNode]; a [GlobalVar] a global name. *)
Definition Var := nat.
Definition GlobalVar := string.

Inductive TypeCode := kDLInt | kDLUInt | kDLFloat.

Record DataType := mkDataType { code : TypeCode; bits : Z; lanes : Z }.

#[global] Instance TypeCode_eq_dec : EqDecision TypeCode.
Proof. solve_decision. Defined.

#[global] Instance DataType_eq_dec : EqDecision DataType.
Proof. solve_decision. Defined.

(** A shape entry is an integer literal or something else (a symbolic
    extent), on which [Downcast<tvm::Integer>] fails. *)
Inductive IndexExpr :=
| IntImm (value : Z)
| SymbolicExtent (name : string).

Inductive RelayType :=
| TensorType (shape : list IndexExpr) (dtype : DataType)
| OtherType (tag : nat).

(** Expressions: variable, global reference, let, conditional, function
    literal and call.  [primitive] is the function attribute read by
    [FunctionNode::IsPrimitive].  Type annotations computed by the type
    checker ([checked_type]) are kept outside the tree. *)
Inductive Expr :=
| EVar (v : Var)
| EGlobalVar (g : GlobalVar)
| ELet (v : Var) (value body : Expr)
| EIf (cond true_branch false_branch : Expr)
| EFunction (params : list Var) (body : Expr) (ret_type : RelayType)
            (type_params : list nat) (primitive : bool)
| ECall (op : Expr) (args : list Expr) (attrs : nat) (type_args : list RelayType).

(** A module-level function: the fields of a [FunctionNode]. *)
Record Function := mkFunction {
  params : list Var;
  body : Expr;
  ret_type : RelayType;
  type_params : list nat;
  primitive : bool
}.

Definition FunctionNode_make (ps : list Var) (b : Expr) (rt : RelayType)
    (tps : list nat) (at_ : bool) : Function :=
  mkFunction ps b rt tps at_.

Definition as_expr (f : Function) : Expr :=
  EFunction (params f) (body f) (ret_type f) (type_params f) (primitive f).

(** [module->functions]: global names to functions, in iteration order. *)
Definition Module := list (GlobalVar * Function).

(** [Map::Set] and [module->Add(g, f, true)]: rebind [g] where it is, or
    add it at the end. *)
Fixpoint Add (m : Module) (g : GlobalVar) (f : Function) : Module :=
  match m with
  | [] => [(g, f)]
  | (g', f') :: rest =>
      if String.eqb g g' then (g, f) :: rest else (g', f') :: Add rest g f
  end.

Definition is_var (e : Expr) : bool :=
  match e with EVar _ => true | _ => false end.

Definition is_global (e : Expr) : bool :=
  match e with EGlobalVar _ => true | _ => false end.

Definition is_primitive_function (e : Expr) : bool :=
  match e with EFunction _ _ _ _ p => p | _ => false end.

(** [calls_ok e]: no call inside [e] has a variable as its operator. *)
Fixpoint calls_ok (e : Expr) : bool :=
  match e with
  | EVar _ | EGlobalVar _ => true
  | ELet _ value body => calls_ok value && calls_ok body
  | EIf c t f => calls_ok c && calls_ok t && calls_ok f
  | EFunction _ body _ _ _ => calls_ok body
  | ECall op args _ _ =>
      negb (is_var op) && calls_ok op &&
      (fix all (l : list Expr) : bool :=
         match l with
         | [] => true
         | a :: rest => calls_ok a && all rest
         end) args
  end.

Definition module_calls_ok (m : Module) : bool :=
  forallb (fun gf => calls_ok (body (snd gf))) m.

(** [occurs v e]: the variable [v] is referenced somewhere in [e]. *)
Fixpoint occurs (x : Var) (e : Expr) : bool :=
  match e with
  | EVar v => Nat.eqb x v
  | EGlobalVar _ => false
  | ELet _ value body => occurs x value || occurs x body
  | EIf c t f => occurs x c || occurs x t || occurs x f
  | EFunction _ body _ _ _ => occurs x body
  | ECall op args _ _ =>
      occurs x op ||
      (fix any (l : list Expr) : bool :=
         match l with
         | [] => false
         | a :: rest => occurs x a || any rest
         end) args
  end.

(** Modelled from the spec: [DeadCodeElimination] is not part of the two
    source files.  The specification describes it as removing the
    let-bindings that are no longer used once the primitive has been
    inlined: a binding is dropped when its variable does not occur in the
    (already cleaned) body, and every sub-expression is cleaned. *)
Fixpoint DeadCodeElimination (e : Expr) : Expr :=
  match e with
  | EVar _ | EGlobalVar _ => e
  | ELet v value body =>
      let body' := DeadCodeElimination body in
      if occurs v body' then ELet v (DeadCodeElimination value) body'
      else body'
  | EIf c t f =>
      EIf (DeadCodeElimination c) (DeadCodeElimination t) (DeadCodeElimination f)
  | EFunction ps body rt tps p =>
      EFunction ps (DeadCodeElimination body) rt tps p
  | ECall op args at_ targs =>
      ECall (DeadCodeElimination op) (map DeadCodeElimination args) at_ targs
  end.

End IR.

(** ** [inline_primitives.cc] *)

Module Inliner.
Import IR.

(** [var_map.insert({v, e})]: an existing entry is kept. *)
Definition var_map_insert (v : Var) (e : Expr) (m : gmap Var Expr)
    : gmap Var Expr :=
  match m !! v with
  | Some _ => m
  | None => <[v := e]> m
  end.

(** Outcome of the [while] loop at the head of the call visitor: the
    operator it stopped at, or the early exit taken when a variable is
    absent from [var_map]. *)
Inductive Collapsed :=
| Resolved (op : Expr)
| Unbound.

(** The [while ((var_node = op.as<VarNode>()))] loop.  Every iteration
    that goes on follows one entry of [var_map]; [fuel] bounds the
    number of such iterations and [None] stands for a loop that is still
    going on when the fuel is spent. *)
Fixpoint collapse (fuel : nat) (m : gmap Var Expr) (op : Expr)
    : option Collapsed :=
  match op with
  | EVar v =>
      match m !! v with
      | Some e =>
          match fuel with
          | O => None
          | S k => collapse k m e
          end
      | None => Some Unbound
      end
  | _ => Some (Resolved op)
  end.

(** The same loop as a relation, with the variables it goes through. *)
Inductive chain (m : gmap Var Expr) : Expr -> list Var -> Collapsed -> Prop :=
| chain_stop (op : Expr) :
    is_var op = false -> chain m op [] (Resolved op)
| chain_unbound (v : Var) :
    m !! v = None -> chain m (EVar v) [] Unbound
| chain_step (v : Var) (e : Expr) (vs : list Var) (r : Collapsed) :
    m !! v = Some e -> chain m e vs r -> chain m (EVar v) (v :: vs) r.

(** A chain that follows more entries than [var_map] holds has entered a
    cycle of aliases, on which the source loops forever. *)
Definition collapse_chain (m : gmap Var Expr) (op : Expr) : option Collapsed :=
  collapse (size m) m op.

Definition CallNode_make (op : Expr) (args : list Expr) (attrs : nat)
    (type_args : list RelayType) : Expr :=
  ECall op args attrs type_args.

(** What the call visitor does once the chain is collapsed: [Some] is the
    rebuilt call, [None] the fall-through to [ExprMutator::VisitExpr_]. *)
Definition inlined_call (r : Collapsed) (args : list Expr) (attrs : nat)
    (type_args : list RelayType) : option Expr :=
  match r with
  | Unbound => None
  | Resolved op =>
      if is_primitive_function op then Some (CallNode_make op args attrs type_args)
      else if is_global op then Some (CallNode_make op args attrs type_args)
      else None
  end.

(** The chain ended on a primitive function literal or a global
    reference, the two operators the call visitor rebuilds a call with. *)
Definition ends_in_callee (r : Collapsed) : bool :=
  match r with
  | Resolved op => is_primitive_function op || is_global op
  | Unbound => false
  end.

(** [PrimitiveInliner::VisitExpr], threading [var_map].  The cases for
    [ELet], [ECall] and [EFunction] are the three overrides of the
    source; the rest, and the fall-through of the overrides, is the
    default traversal of [ExprMutator].

    [ExprMutator] is not part of the two source files.  Its default
    traversal rewrites the children of a node from left to right and
    rebuilds the node, and it memoises the result per node, so that the
    let value visited by the override is not visited again by the default
    traversal that follows. *)
Fixpoint VisitExpr (m : gmap Var Expr) (e : Expr)
    : option (Expr * gmap Var Expr) :=
  match e with
  | EVar _ | EGlobalVar _ => Some (e, m)
  | ELet v value body =>
      match VisitExpr m value with
      | None => None
      | Some (value', m1) =>
          match VisitExpr (var_map_insert v value' m1) body with
          | None => None
          | Some (body', m2) => Some (ELet v value' body', m2)
          end
      end
  | EIf c t f =>
      match VisitExpr m c with
      | None => None
      | Some (c', m1) =>
          match VisitExpr m1 t with
          | None => None
          | Some (t', m2) =>
              match VisitExpr m2 f with
              | None => None
              | Some (f', m3) => Some (EIf c' t' f', m3)
              end
          end
      end
  | EFunction ps body rt tps prim =>
      if prim then Some (e, m)
      else
        match VisitExpr m body with
        | None => None
        | Some (body', m1) => Some (EFunction ps body' rt tps prim, m1)
        end
  | ECall op args attrs targs =>
      match collapse_chain m op with
      | None => None
      | Some r =>
          match inlined_call r args attrs targs with
          | Some call' => Some (call', m)
          | None =>
              match VisitExpr m op with
              | None => None
              | Some (op', m1) =>
                  match
                    (fix visit_args (m : gmap Var Expr) (l : list Expr)
                        : option (list Expr * gmap Var Expr) :=
                       match l with
                       | [] => Some ([], m)
                       | a :: rest =>
                           match VisitExpr m a with
                           | None => None
                           | Some (a', m') =>
                               match visit_args m' rest with
                               | None => None
                               | Some (rest', m'') => Some (a' :: rest', m'')
                               end
                           end
                       end) m1 args
                  with
                  | None => None
                  | Some (args', m2) => Some (ECall op' args' attrs targs, m2)
                  end
              end
          end
      end
  end.

(** The loop of the default traversal over the arguments of a call, under
    a name of its own. *)
Definition visit_args : gmap Var Expr -> list Expr
    -> option (list Expr * gmap Var Expr) :=
  fix visit_args (m : gmap Var Expr) (l : list Expr) :=
    match l with
    | [] => Some ([], m)
    | a :: rest =>
        match VisitExpr m a with
        | None => None
        | Some (a', m') =>
            match visit_args m' rest with
            | None => None
            | Some (rest', m'') => Some (a' :: rest', m'')
            end
        end
    end.

(** [PrimitiveInliner::Inline], with the dead-code eliminator as a
    parameter. *)
Definition Inline (dce : Expr -> Expr) (m : gmap Var Expr) (func : Function)
    : option (Function * gmap Var Expr) :=
  match VisitExpr m (body func) with
  | None => None
  | Some (body', m') =>
      Some (FunctionNode_make (params func) (dce body') (ret_type func)
              (type_params func) (primitive func), m')
  end.

(** The first loop of [InlinePrimitives]: one inliner, hence one
    [var_map], for all the functions of the module. *)
Fixpoint inline_functions (dce : Expr -> Expr) (m : gmap Var Expr)
    (fs : Module) (updates : Module) : option Module :=
  match fs with
  | [] => Some updates
  | (global, func) :: rest =>
      match Inline dce m func with
      | None => None
      | Some (func', m') => inline_functions dce m' rest (Add updates global func')
      end
  end.

(** The functions of a module rewritten one after the other, keys kept:
    what the two loops of [InlinePrimitives] amount to on a module whose
    names are distinct. *)
Fixpoint inline_in_order (dce : Expr -> Expr) (m : gmap Var Expr) (fs : Module)
    : option (Module * gmap Var Expr) :=
  match fs with
  | [] => Some ([], m)
  | (global, func) :: rest =>
      match Inline dce m func with
      | None => None
      | Some (func', m') =>
          match inline_in_order dce m' rest with
          | None => None
          | Some (rest', m'') => Some ((global, func') :: rest', m'')
          end
      end
  end.

(** [InlinePrimitives]; [None] when the pass does not return. *)
Definition InlinePrimitives_with (dce : Expr -> Expr) (module : Module)
    : option Module :=
  match inline_functions dce ∅ module [] with
  | None => None
  | Some updates =>
      Some (fold_left (fun md gf => Add md (fst gf) (snd gf)) updates module)
  end.

Definition InlinePrimitives : Module -> option Module :=
  InlinePrimitives_with DeadCodeElimination.

End Inliner.

(** ** Results of fallible code *)

Inductive result (E A : Type) : Type :=
| OK (a : A)
| Error (e : E).

Arguments OK {E A} a.
Arguments Error {E A} e.

Definition bind {E A B : Type} (r : result E A) (k : A -> result E B)
    : result E B :=
  match r with
  | OK a => k a
  | Error e => Error e
  end.

Notation "'do' x <- r ; k" := (bind r (fun x => k))
  (at level 10, x pattern, r at level 100, k at level 200).

(** ** Unsigned machine integers ([size_t]) *)

Module SizeT.
Local Open Scope Z_scope.

Definition modulus : Z := 2 ^ 64.

Definition add (a b : Z) : Z := (a + b) mod modulus.
Definition sub (a b : Z) : Z := (a - b) mod modulus.

(** [v.size()] *)
Definition size {A : Type} (v : list A) : Z := Z.of_nat (length v).

End SizeT.

(** ** Instructions of [vm.cc] *)

Module Bytecode.
Import IR.
Local Open Scope Z_scope.
Local Open Scope string_scope.

(** The instruction as a tagged variant: each opcode with the operands
    that the copy constructor transfers for it. *)
Inductive Instruction :=
| Push (stack_index : Z)
| Ret
| InvokePacked (packed_index arity : Z)
| AllocTensor (shape : list Z) (dtype : DataType)
| If (true_offset false_offset : Z)
| Invoke (func_index : Z).

(** Field reads: a field is there for the opcode that carries it. *)
Definition get_false_offset (instr : Instruction) : option Z :=
  match instr with
  | If _ f => Some f
  | _ => None
  end.

(** Field writes used by the back-patching of the compiler. *)
Definition set_true_offset (t : Z) (instr : Instruction) : Instruction :=
  match instr with
  | If _ f => If t f
  | other => other
  end.

Definition set_false_offset (f : Z) (instr : Instruction) : Instruction :=
  match instr with
  | If t _ => If t f
  | other => other
  end.

(** Modelled from the spec: the printer of a data type ([TVMType2Type]
    followed by [operator<<]) is not part of the two source files; the
    specification writes a 32-bit float as [float32]. *)
Definition print_dtype (t : DataType) : string :=
  (match code t with
   | kDLInt => "int"
   | kDLUInt => "uint"
   | kDLFloat => "float"
   end) +:+ pretty (bits t) +:+
  (if Z.eqb (lanes t) 1 then "" else "x" +:+ pretty (lanes t)).

(** The loop over [tensor_info.shape] of the [AllocTensor] case. *)
Fixpoint print_shape (shape : list Z) : string :=
  match shape with
  | [] => ""
  | d :: rest => pretty d +:+ ", " +:+ print_shape rest
  end.

(** The text of the [Invoke] case, which the [If] case runs into as well,
    there being no [break] between the two.  It reads the field
    [false_offset]; the text is [None] when the instruction does not
    carry that field. *)
Definition print_invoke_case (instr : Instruction) : option string :=
  match get_false_offset instr with
  | Some f => Some ("invoke " +:+ pretty f)
  | None => None
  end.

(** [InstructionPrint]: the characters sent to the stream. *)
Definition InstructionPrint (instr : Instruction) : option string :=
  match instr with
  | Push stack_index => Some ("push " +:+ pretty stack_index)
  | Ret => Some "ret"
  | InvokePacked packed_index arity =>
      Some ("invoke_packed " +:+ pretty packed_index +:+ " " +:+ pretty arity)
  | AllocTensor shape dtype =>
      Some ("alloc_tensor" +:+ "(" +:+ print_shape shape +:+ ") " +:+ print_dtype dtype)
  | If true_offset false_offset =>
      match print_invoke_case instr with
      | Some tail =>
          Some ("if " +:+ pretty true_offset +:+ " " +:+ pretty false_offset +:+ tail)
      | None => None
      end
  | Invoke _ => print_invoke_case instr
  end.

(** The extents as the specification writes them: [<d0>, <d1>, ...] in
    section 6.2, and [4,] for the one extent of its second scenario. *)
Fixpoint spec_extents (shape : list Z) : string :=
  match shape with
  | [] => ""
  | [d] => pretty d
  | d :: rest => pretty d +:+ ", " +:+ spec_extents rest
  end.

Definition spec_shape (shape : list Z) : string :=
  match shape with
  | [d] => pretty d +:+ ","
  | _ => spec_extents shape
  end.

(** The textual forms of section 6.2 of the specification. *)
Definition spec_text (instr : Instruction) : string :=
  match instr with
  | Push s => "push " +:+ pretty s
  | Ret => "ret"
  | InvokePacked i n => "invoke_packed " +:+ pretty i +:+ " " +:+ pretty n
  | AllocTensor shape dtype =>
      "alloc_tensor(" +:+ spec_shape shape +:+ ") " +:+ print_dtype dtype
  | If t f => "if " +:+ pretty t +:+ " " +:+ pretty f
  | Invoke i => "invoke " +:+ pretty i
  end.

Record VMFunction := mkVMFunction {
  params : Z;
  instructions : list Instruction
}.

End Bytecode.

(** ** Tensors, device memory and packed kernels *)

Module Runtime.
Import IR.
Local Open Scope Z_scope.

(** An [NDArray] is a handle on a device buffer: copies of the handle
    share the buffer. *)
Definition NDArray := nat.

Record Buffer := mkBuffer {
  shape : list Z;
  dtype : DataType;
  data : option (list Z)   (* the bytes; [None] before anything is written *)
}.

Definition Memory := list Buffer.

(** [NDArray::Empty]: a fresh buffer, contents not yet written. *)
Definition NDArray_Empty (mem : Memory) (sh : list Z) (dt : DataType)
    : NDArray * Memory :=
  (length mem, mem ++ [mkBuffer sh dt None]).

(** A packed kernel acts on memory through the handles it is given;
    [None] is a kernel that fails. *)
Definition PackedFunc := Memory -> list NDArray -> option Memory.

(** [VMObject()] is the empty object; the one variant in use is the tensor. *)
Inductive VMObject :=
| VMNull
| VMTensor (data : NDArray).

Definition Bool : DataType := mkDataType kDLUInt 1 1.

End Runtime.

(** ** The bytecode compiler of [vm.cc] *)

Module Compiler.
Import IR Bytecode Runtime.
Local Open Scope Z_scope.

(** A lowered kernel, known by its name. *)
Definition LoweredFunc := string.

(** The collaborators outside the two source files: the type checker's
    annotation of a call, the compile engine, and the registered
    [relay.backend.build] with the module it returns. *)
Record Engine := mkEngine {
  checked_type : Expr -> option RelayType;
  Lower : Expr -> option (list LoweredFunc);
  backend_build : option (list LoweredFunc -> option (LoweredFunc -> PackedFunc))
}.

(** The checks that stop a compilation, one per [CHECK] of the source. *)
Inductive CompileError :=
| UnboundVariable        (* CHECK(it != this->var_map.end()) *)
| OperatorNotFunction    (* CHECK(func_node) *)
| TypeNotInferred        (* checked_type() on a call without one *)
| ResultNotTensor        (* CHECK(ttype) *)
| ShapeNotStatic         (* Downcast<tvm::Integer>(sh) *)
| NotPrimitive           (* CHECK(func_node->IsPrimitive()) *)
| LoweringFailed         (* engine->Lower *)
| KernelCount            (* CHECK(cfunc->funcs.size() == 1) *)
| CapacityLimit          (* CHECK(arity < 10) *)
| NestedFunction         (* CHECK(!seen_func) *)
| NoVisitor              (* no VisitExpr_ for this kind of node *)
| BuildNotRegistered     (* relay.backend.build is not registered *)
| BuildFailed.           (* CHECK(mod.operator->()) *)

Record VMCompiler := mkVMCompiler {
  instructions : list Instruction;
  var_map : gmap Var Z;
  stack_index : Z;
  seen_func : bool;
  lowered_funcs : list LoweredFunc
}.

Definition new_compiler : VMCompiler := mkVMCompiler [] ∅ 0 false [].

Definition Emit (c : VMCompiler) (instr : Instruction) : VMCompiler :=
  mkVMCompiler (instructions c ++ [instr]) (var_map c) (stack_index c)
    (seen_func c) (lowered_funcs c).

Definition set_instructions (c : VMCompiler) (instrs : list Instruction)
    : VMCompiler :=
  mkVMCompiler instrs (var_map c) (stack_index c) (seen_func c) (lowered_funcs c).

(** [var_map.insert({ param, this->stack_index++ })] *)
Definition bind_param (c : VMCompiler) (param : Var) : VMCompiler :=
  mkVMCompiler (instructions c)
    (match var_map c !! param with
     | Some _ => var_map c
     | None => <[param := stack_index c]> (var_map c)
     end)
    (SizeT.add (stack_index c) 1) (seen_func c) (lowered_funcs c).

Definition enter_function (c : VMCompiler) : VMCompiler :=
  mkVMCompiler (instructions c) (var_map c) (stack_index c) true (lowered_funcs c).

Definition push_lowered (c : VMCompiler) (f : LoweredFunc) : VMCompiler :=
  mkVMCompiler (instructions c) (var_map c) (stack_index c) (seen_func c)
    (lowered_funcs c ++ [f]).

(** The loop [for (auto sh : ttype->shape)]. *)
Fixpoint static_shape (sh : list IndexExpr) : result CompileError (list Z) :=
  match sh with
  | [] => OK []
  | IntImm v :: rest => do vs <- static_shape rest; OK (v :: vs)
  | SymbolicExtent _ :: _ => Error ShapeNotStatic
  end.

(** The two assignments that patch the [If] at index [at_]. *)
Definition patch_if (instrs : list Instruction) (at_ : Z)
    (true_offset false_offset : Z) : list Instruction :=
  alter (set_false_offset false_offset) (Z.to_nat at_)
    (alter (set_true_offset true_offset) (Z.to_nat at_) instrs).

(** The tail of the call visitor, from the result type on. *)
Definition emit_call (eng : Engine) (c : VMCompiler) (call op : Expr)
    (nparams : Z) (prim : bool) : result CompileError VMCompiler :=
  match checked_type eng call with
  | None => Error TypeNotInferred
  | Some (OtherType _) => Error ResultNotTensor
  | Some (TensorType sh dt) =>
      do shapes <- static_shape sh;
      let c1 := Emit c (AllocTensor shapes dt) in
      if negb prim then Error NotPrimitive
      else
        match Lower eng op with
        | None => Error LoweringFailed
        | Some [lowered] =>
            let op_index := SizeT.size (lowered_funcs c1) in
            let c2 := push_lowered c1 lowered in
            let arity := SizeT.add nparams 1 in
            if arity <? 10 then OK (Emit c2 (InvokePacked op_index arity))
            else Error CapacityLimit
        | Some _ => Error KernelCount
        end
  end.

(** [VMCompiler::VisitExpr]: the four visitors of the source; any other
    node has no visitor. *)
Fixpoint VisitExpr (eng : Engine) (c : VMCompiler) (e : Expr) {struct e}
    : result CompileError VMCompiler :=
  match e with
  | EVar v =>
      match var_map c !! v with
      | None => Error UnboundVariable
      | Some slot => OK (Emit c (Push slot))
      end
  | EIf cond true_branch false_branch =>
      do c1 <- VisitExpr eng c cond;
      let after_cond := SizeT.size (instructions c1) in
      let c2 := Emit c1 (If 0 0) in
      do c3 <- VisitExpr eng c2 true_branch;
      let after_true := SizeT.size (instructions c3) in
      do c4 <- VisitExpr eng c3 false_branch;
      let true_offset := 1 in
      let false_offset := SizeT.sub after_true after_cond in
      OK (set_instructions c4
            (patch_if (instructions c4) after_cond true_offset false_offset))
  | ECall op args _ _ =>
      match op with
      | EFunction ps _ _ _ prim =>
          do c1 <-
            (fix visit_args (c : VMCompiler) (l : list Expr)
                : result CompileError VMCompiler :=
               match l with
               | [] => OK c
               | arg :: rest => do c' <- VisitExpr eng c arg; visit_args c' rest
               end) c args;
          emit_call eng c1 e op (SizeT.size ps) prim
      | _ => Error OperatorNotFunction
      end
  | EFunction ps body _ _ _ =>
      if seen_func c then Error NestedFunction
      else VisitExpr eng (fold_left bind_param ps (enter_function c)) body
  | ELet _ _ _ | EGlobalVar _ => Error NoVisitor
  end.

(** The argument loop of the call visitor, under a name of its own. *)
Definition visit_args (eng : Engine)
    : VMCompiler -> list Expr -> result CompileError VMCompiler :=
  fix visit_args (c : VMCompiler) (l : list Expr) :=
    match l with
    | [] => OK c
    | arg :: rest => do c' <- VisitExpr eng c arg; visit_args c' rest
    end.

(** [CompileFunc] *)
Definition CompileFunc (eng : Engine) (func : Function)
    : result CompileError (list LoweredFunc * VMFunction) :=
  let params := SizeT.size (IR.params func) in
  do compiler <- VisitExpr eng new_compiler (as_expr func);
  OK (lowered_funcs compiler, mkVMFunction params (instructions compiler ++ [Ret])).

End Compiler.

(** ** The interpreter of [vm.cc] *)

Module VMFrame.
Import Bytecode.

(** [VMFrame(ret_pc, bp, func_index, arg_count, code)] *)
Record t := mk {
  pc : Z;
  bp : Z;
  func_index : Z;
  args : Z;
  code : option (list Instruction)
}.

End VMFrame.

Module VM.
Import IR Bytecode Runtime.
Local Open Scope Z_scope.

(** A run stops on a failed [CHECK] or [LOG(FATAL)], or leaves the
    defined behaviour of C++ (an access outside a vector or an array). *)
Inductive Fault :=
| Fatal (what : string)
| Undefined (what : string).

(** The state of the machine; a null [code] pointer is [None]. *)
Record VirtualMachine := mkVM {
  functions : list VMFunction;
  packed_funcs : list PackedFunc;
  frames : list VMFrame.t;
  stack : list VMObject;
  func_index : Z;
  code : option (list Instruction);
  pc : Z;
  bp : Z
}.

Definition set_stack (vm : VirtualMachine) (s : list VMObject) : VirtualMachine :=
  mkVM (functions vm) (packed_funcs vm) (frames vm) s (func_index vm)
    (code vm) (pc vm) (bp vm).

Definition set_pc (vm : VirtualMachine) (p : Z) : VirtualMachine :=
  mkVM (functions vm) (packed_funcs vm) (frames vm) (stack vm) (func_index vm)
    (code vm) p (bp vm).

(** [v[i]] as a read and as a write; the index is unsigned. *)
Definition read {A : Type} (v : list A) (i : Z) : result Fault A :=
  if i <? 0 then Error (Undefined "read outside the vector")
  else
    match v !! Z.to_nat i with
    | Some x => OK x
    | None => Error (Undefined "read outside the vector")
    end.

Definition write {A : Type} (v : list A) (i : Z) (x : A) : result Fault (list A) :=
  if (0 <=? i) && (i <? SizeT.size v) then OK (<[Z.to_nat i := x]> v)
  else Error (Undefined "write outside the vector").

(** [v.back()] *)
Definition back {A : Type} (v : list A) : result Fault A :=
  match last v with
  | Some x => OK x
  | None => Error (Undefined "back of an empty vector")
  end.

Definition ToNDArray (obj : VMObject) : result Fault NDArray :=
  match obj with
  | VMTensor d => OK d
  | VMNull => Error (Fatal "ToNDArray: not a tensor")
  end.

(** [VirtualMachine::PushFrame] *)
Definition PushFrame (vm : VirtualMachine) (arg_count ret_pc : Z)
    (vm_func : VMFunction) : VirtualMachine :=
  let frame := VMFrame.mk ret_pc (bp vm) (func_index vm) arg_count (code vm) in
  mkVM (functions vm) (packed_funcs vm) (frames vm ++ [frame]) (stack vm)
    (func_index vm) (code vm) (pc vm) (bp vm).

(** [VirtualMachine::PopFrame]: the machine after it and the value it
    returns. *)
Definition PopFrame (vm : VirtualMachine) : result Fault (Z * VirtualMachine) :=
  match last (frames vm) with
  | None => Error (Fatal "frames.size() != 0")
  | Some fr =>
      let stack_size := SizeT.size (stack vm) in
      let slot := SizeT.sub (SizeT.sub stack_size (VMFrame.args fr)) 1 in
      if negb (slot <? SizeT.size (stack vm))
      then Error (Fatal "attempting to read stack slot")
      else
        do top <- read (stack vm) (SizeT.sub stack_size 1);
        do stack1 <- write (stack vm) slot top;
        let stack2 :=
          resize (Z.to_nat (SizeT.sub stack_size (VMFrame.args fr))) VMNull stack1 in
        let call_stack_size := SizeT.size (frames vm) in
        OK (call_stack_size,
            mkVM (functions vm) (packed_funcs vm) (removelast (frames vm)) stack2
              (VMFrame.func_index fr) (VMFrame.code fr) (VMFrame.pc fr)
              (VMFrame.bp fr))
  end.

(** [VirtualMachine::InvokeGlobal] *)
Definition InvokeGlobal (vm : VirtualMachine) (func : VMFunction)
    (args : list VMObject) : result Fault VirtualMachine :=
  let stack_start := SizeT.size (stack vm) in
  let vm1 := set_stack vm ((stack vm ++ [VMNull]) ++ args) in
  let vm2 := PushFrame vm1 (params func) (SizeT.add (pc vm1) 1) func in
  if SizeT.add (SizeT.add stack_start (params func)) 1 =? SizeT.size (stack vm2)
  then
    OK (mkVM (functions vm2) (packed_funcs vm2) (frames vm2) (stack vm2)
          (func_index vm2) (Some (instructions func)) 0
          (SizeT.sub (SizeT.size (stack vm2)) (params func)))
  else Error (Fatal "stack_start + func.params + 1 == stack.size()").

(** The argument loop of [InvokePacked]. *)
Fixpoint packed_args (stack : list VMObject) (stack_start : Z) (i : Z) (n : nat)
    : result Fault (list NDArray) :=
  match n with
  | O => OK []
  | S k =>
      do obj <- read stack (SizeT.add stack_start i);
      do nd <- ToNDArray obj;
      do rest <- packed_args stack stack_start (i + 1) k;
      OK (nd :: rest)
  end.

(** The free function [InvokePacked(func, arg_count, stack)]. *)
Definition InvokePacked (func : PackedFunc) (arg_count : Z)
    (stack : list VMObject) (mem : Memory)
    : result Fault (list VMObject * Memory) :=
  if negb (arg_count <=? SizeT.size stack)
  then Error (Fatal "arg_count <= stack.size()")
  else
    let stack_start := SizeT.sub (SizeT.size stack) arg_count in
    do values <- packed_args stack stack_start 0 (Z.to_nat arg_count);
    match func mem values with
    | None => Error (Fatal "CallPacked")
    | Some mem' =>
        do top <- read stack (SizeT.sub (SizeT.size stack) 1);
        do stack1 <- write stack (SizeT.sub (SizeT.size stack) arg_count) top;
        OK (resize
              (Z.to_nat (SizeT.add (SizeT.sub (SizeT.size stack) arg_count) 1))
              VMNull stack1,
            mem')
    end.

(** One turn of the dispatch loop of [Run]: go on, or return to the caller. *)
Inductive Step :=
| Continue (vm : VirtualMachine) (mem : Memory)
| Return (vm : VirtualMachine) (mem : Memory).

(** [this->code[this->pc]] *)
Definition fetch (vm : VirtualMachine) : result Fault Instruction :=
  match code vm with
  | None => Error (Undefined "null code pointer")
  | Some c => read c (pc vm)
  end.

(** The byte read by the [If] case from the condition tensor. *)
Definition read_condition (mem : Memory) (cond : VMObject) : result Fault bool :=
  do arr <- ToNDArray cond;
  match mem !! arr with
  | None => Error (Undefined "dangling tensor")
  | Some buf =>
      if negb (bool_decide (dtype buf = Bool)) then Error (Fatal "CHECK_EQ dtype Bool")
      else
        match data buf with
        | Some (b :: _) => OK (negb (b =? 0))
        | _ => Error (Undefined "condition byte not written")
        end
  end.

Definition step (stack_start : Z) (vm : VirtualMachine) (mem : Memory)
    : result Fault Step :=
  do instr <- fetch vm;
  match instr with
  | Invoke _ => Error (Fatal "false")
  | Bytecode.InvokePacked packed_index arity =>
      let start_stack := SizeT.size (stack vm) in
      do func <- read (packed_funcs vm) packed_index;
      do res <- InvokePacked func arity (stack vm) mem;
      if SizeT.add (SizeT.sub start_stack arity) 1 =? SizeT.size (fst res)
      then OK (Continue (set_pc (set_stack vm (fst res)) (SizeT.add (pc vm) 1)) (snd res))
      else Error (Fatal "start_stack - arity + 1 == stack.size()")
  | If true_offset false_offset =>
      do cond <- back (stack vm);
      do branch <- read_condition mem cond;
      let vm1 := set_stack vm (removelast (stack vm)) in
      if branch then OK (Continue (set_pc vm1 (SizeT.add (pc vm1) true_offset)) mem)
      else OK (Continue (set_pc vm1 (SizeT.add (pc vm1) false_offset)) mem)
  | AllocTensor sh dt =>
      let alloc := NDArray_Empty mem sh dt in
      OK (Continue
            (set_pc (set_stack vm (stack vm ++ [VMTensor (fst alloc)]))
               (SizeT.add (pc vm) 1))
            (snd alloc))
  | Push stack_index =>
      if negb (SizeT.add (bp vm) stack_index <? SizeT.size (stack vm))
      then Error (Fatal "bp + instr.stack_index < stack.size()")
      else
        do obj <- read (stack vm) (SizeT.add (bp vm) stack_index);
        OK (Continue (set_pc (set_stack vm (stack vm ++ [obj])) (SizeT.add (pc vm) 1)) mem)
  | Ret =>
      do popped <- PopFrame vm;
      if fst popped =? stack_start then OK (Return (snd popped) mem)
      else OK (Continue (snd popped) mem)
  end.

(** The machine a step leaves, whether the loop goes on or returns. *)
Definition machine_of (s : Step) : VirtualMachine :=
  match s with
  | Continue vm _ => vm
  | Return vm _ => vm
  end.

(** How a call into the machine ends. *)
Inductive Outcome (A : Type) :=
| Finished (a : A)
| Failed (f : Fault)
| OutOfFuel.

Arguments Finished {A} a.
Arguments Failed {A} f.
Arguments OutOfFuel {A}.

(** The [while (true)] of [Run], at most [fuel] instructions long. *)
Fixpoint dispatch (fuel : nat) (stack_start : Z) (vm : VirtualMachine)
    (mem : Memory) : Outcome (VirtualMachine * Memory) :=
  match fuel with
  | O => OutOfFuel
  | S k =>
      match step stack_start vm mem with
      | Error f => Failed f
      | OK (Return vm' mem') => Finished (vm', mem')
      | OK (Continue vm' mem') => dispatch k stack_start vm' mem'
      end
  end.

(** [VirtualMachine::Run] *)
Definition Run (fuel : nat) (vm : VirtualMachine) (mem : Memory)
    : Outcome (VirtualMachine * Memory) :=
  match code vm with
  | None => Failed (Fatal "this->code")
  | Some _ =>
      let vm0 := set_pc vm 0 in
      let stack_start := SizeT.size (frames vm0) in
      dispatch fuel stack_start vm0 mem
  end.

(** [VirtualMachine::Invoke]: the object returned, with the machine and
    the memory it leaves. *)
Definition Invoke (fuel : nat) (vm : VirtualMachine) (mem : Memory)
    (func : VMFunction) (args : list VMObject)
    : Outcome (VMObject * VirtualMachine * Memory) :=
  match InvokeGlobal vm func args with
  | Error f => Failed f
  | OK vm1 =>
      match Run fuel vm1 mem with
      | Finished (vm2, mem2) =>
          match back (stack vm2) with
          | OK obj => Finished (obj, vm2, mem2)
          | Error f => Failed f
          end
      | Failed f => Failed f
      | OutOfFuel => OutOfFuel
      end
  end.

End VM.

(** ** Linking a module, and the registered entry point *)

Module Linker.
Import IR Bytecode Runtime Compiler VM.
Local Open Scope Z_scope.

(** [PopulatePackedFuncMap] *)
Definition PopulatePackedFuncMap (eng : Engine) (lowered_funcs : list LoweredFunc)
    (packed_funcs : list PackedFunc) : result CompileError (list PackedFunc) :=
  if 0 <? SizeT.size lowered_funcs then
    match backend_build eng with
    | None => Error BuildNotRegistered
    | Some f =>
        match f lowered_funcs with
        | None => Error BuildFailed
        | Some mod_ => OK (packed_funcs ++ map mod_ lowered_funcs)
        end
    end
  else OK packed_funcs.

(** The machine declared by [VirtualMachine vm;]: empty tables and stacks;
    counters at zero and a null code pointer. *)
Definition new_vm : VirtualMachine := mkVM [] [] [] [] 0 None 0 0.

(** The loop of [CompileModule] over [mod->functions]. *)
Fixpoint compile_functions (eng : Engine) (fs : Module)
    (lowered_funcs : list LoweredFunc) (vm_funcs : list VMFunction)
    : result CompileError (list LoweredFunc * list VMFunction) :=
  match fs with
  | [] => OK (lowered_funcs, vm_funcs)
  | (gvar, func) :: rest =>
      do cfunc <- CompileFunc eng func;
      compile_functions eng rest (lowered_funcs ++ fst cfunc) (vm_funcs ++ [snd cfunc])
  end.

(** [CompileModule] *)
Definition CompileModule (eng : Engine) (mod_ : Module)
    : result CompileError VirtualMachine :=
  do compiled <- compile_functions eng mod_ [] (functions new_vm);
  do packed <- PopulatePackedFuncMap eng (fst compiled) (packed_funcs new_vm);
  OK (mkVM (snd compiled) packed (frames new_vm) (stack new_vm)
        (func_index new_vm) (code new_vm) (pc new_vm) (bp new_vm)).

End Linker.

Module Host.
Import IR Bytecode Runtime Compiler VM Linker.
Local Open Scope Z_scope.

(** The first argument of the entry point, and the values of the second. *)
Inductive NodeRef :=
| FunctionRef (f : Function)
| ModuleRef (m : Module)
| OtherRef.

Inductive Value :=
| TensorValue (data : NDArray)
| OtherValue.

Inductive Reply :=
| Returned (v : Value) (mem : Memory)
| CompileFailed (e : CompileError)
| RunFailed (f : Fault)
| NoReply.

(** The loop converting [vargs] into [vm_args]. *)
Fixpoint convert_args (vargs : list Value) : result Fault (list VMObject) :=
  match vargs with
  | [] => OK []
  | TensorValue d :: rest => do objs <- convert_args rest; OK (VMTensor d :: objs)
  | OtherValue :: _ => Error (Fatal "Downcast<TensorValue>")
  end.

(** The module the entry point compiles. *)
Definition module_of (from_expr : Function -> Module) (to_compile : NodeRef)
    : result Fault Module :=
  match to_compile with
  | FunctionRef f => OK (from_expr f)
  | ModuleRef m => OK m
  | OtherRef => Error (Fatal "expected function or module")
  end.

(** The body registered as [relay._runtime._testeval]; [from_expr] is
    [ModuleNode::FromExpr]. *)
Definition testeval (eng : Engine) (from_expr : Function -> Module)
    (fuel : nat) (mem : Memory) (to_compile : NodeRef) (vargs : list Value)
    : Reply :=
  match module_of from_expr to_compile with
  | Error f => RunFailed f
  | OK module =>
      match CompileModule eng module with
      | Error e => CompileFailed e
      | OK vm =>
          match read (functions vm) 0 with
          | Error f => RunFailed f
          | OK main =>
              match convert_args vargs with
              | Error f => RunFailed f
              | OK vm_args =>
                  match Invoke fuel vm mem main vm_args with
                  | OutOfFuel => NoReply
                  | Failed f => RunFailed f
                  | Finished (result, _, mem') =>
                      match ToNDArray result with
                      | Error f => RunFailed f
                      | OK nd => Returned (TensorValue nd) mem'
                      end
                  end
              end
          end
      end
  end.

End Host.

(** ** Programs used as examples *)

Module Examples.
Import IR Bytecode Runtime Compiler.
Local Open Scope Z_scope.

Definition float32 : DataType := mkDataType kDLFloat 32 1.

Definition tensor4 : RelayType := TensorType [IntImm 4] float32.

(** A primitive function of the given parameters. *)
Definition primitive_of (ps : list Var) : Expr :=
  EFunction ps (EVar 0%nat) tensor4 [] true.

Definition prim : Expr := primitive_of [100%nat].

(** A kernel that leaves the memory as it is. *)
Definition idle_kernel : PackedFunc := fun mem _ => Some mem.

(** Collaborators that type every call as a vector of four floats and
    lower every primitive to one kernel. *)
Definition engine : Engine :=
  mkEngine (fun _ => Some tensor4) (fun _ => Some ["fused_kernel"%string])
    (Some (fun _ => Some (fun _ => idle_kernel))).

Definition from_expr (f : Function) : Module := [("main"%string, f)].

(** A compiler that has entered a function of [n] parameters [0 .. n-1]. *)
Definition inside_function (n : nat) : VMCompiler :=
  fold_left bind_param (seq 0 n) (enter_function new_compiler).

(** The call of an [n]-ary primitive on the [n] parameters. *)
Definition call_primitive (n : nat) : Expr :=
  ECall (primitive_of (seq 0 n)) (map EVar (seq 0 n)) 0%nat [].

(** [fn (f, x) { f(x) }] *)
Definition apply_parameter : Function :=
  mkFunction [0%nat; 1%nat] (ECall (EVar 0%nat) [EVar 1%nat] 0%nat []) tensor4 [] false.

(** [fn (x) { let f = (let u = x; prim); f(x) }] *)
Definition hidden_primitive : Function :=
  mkFunction [0%nat]
    (ELet 1%nat (ELet 2%nat (EVar 0%nat) prim)
       (ECall (EVar 1%nat) [EVar 0%nat] 0%nat []))
    tensor4 [] false.

(** [fn (x) { let p = prim; let q = p; q(x) }] *)
Definition aliased_primitive : Function :=
  mkFunction [0%nat]
    (ELet 1%nat prim
       (ELet 2%nat (EVar 1%nat) (ECall (EVar 2%nat) [EVar 0%nat] 0%nat [])))
    tensor4 [] false.

(** [fn (x) { let g = @helper; g(g) }] *)
Definition global_alias : Function :=
  mkFunction [0%nat]
    (ELet 1%nat (EGlobalVar "helper") (ECall (EVar 1%nat) [EVar 1%nat] 0%nat []))
    tensor4 [] false.

(** [fn (x: Tensor[2,2] float32) { x }] and the matrix [[1,2],[3,4]], one
    value per cell. *)
Definition identity : Function :=
  mkFunction [0%nat] (EVar 0%nat) (TensorType [IntImm 2; IntImm 2] float32) [] false.

Definition matrix : Buffer := mkBuffer [2; 2] float32 (Some [1; 2; 3; 4]).

(** [fn (c, x, y) { if c then x else y }] *)
Definition conditional : Expr :=
  EIf (EVar 0%nat) (EVar 1%nat) (EVar 2%nat).

End Examples.

(** ** Static readings of bytecode and of expressions *)

Module Analysis.
Import IR Bytecode.
Local Open Scope Z_scope.

(** The change of stack height made by an instruction whose step goes
    through: what the cases of [Run] push and pop. *)
Definition stack_effect (instr : Instruction) : Z :=
  match instr with
  | Push _ => 1
  | AllocTensor _ _ => 1
  | InvokePacked _ arity => 1 - arity
  | If _ _ => -1
  | Ret | Invoke _ => 0
  end.

Definition net_effect (code : list Instruction) : Z :=
  foldr (fun instr acc => stack_effect instr + acc) 0 code.

(** The tag of an instruction ([instr.op]). *)
Inductive Opcode :=
| OpPush | OpRet | OpInvokePacked | OpAllocTensor | OpIf | OpInvoke.

Definition op (instr : Instruction) : Opcode :=
  match instr with
  | Push _ => OpPush
  | Ret => OpRet
  | InvokePacked _ _ => OpInvokePacked
  | AllocTensor _ _ => OpAllocTensor
  | If _ _ => OpIf
  | Invoke _ => OpInvoke
  end.

(** Neither [Ret] nor [Invoke]. *)
Definition is_body_instruction (instr : Instruction) : bool :=
  match instr with
  | Ret | Invoke _ => false
  | _ => true
  end.

Definition is_InvokePacked (instr : Instruction) : bool :=
  match instr with
  | InvokePacked _ _ => true
  | _ => false
  end.

(** The kernel index and the arity of every [InvokePacked], in order. *)
Fixpoint kernel_calls (code : list Instruction) : list (Z * Z) :=
  match code with
  | [] => []
  | InvokePacked i n :: rest => (i, n) :: kernel_calls rest
  | _ :: rest => kernel_calls rest
  end.

(** Expressions made of variables and of calls of function literals on as
    many arguments as the literal has parameters (fewer than [2^64 - 1]
    of them); a function literal counts through its body. *)
Fixpoint straight_line (e : Expr) : bool :=
  match e with
  | EVar _ => true
  | EFunction _ body _ _ _ => straight_line body
  | ECall (EFunction ps _ _ _ _) args _ _ =>
      (SizeT.size args =? SizeT.size ps)
      && (SizeT.size ps + 1 <? SizeT.modulus)
      && (fix all (l : list Expr) : bool :=
            match l with
            | [] => true
            | a :: rest => straight_line a && all rest
            end) args
  | _ => false
  end.

(** No let-binding anywhere. *)
Fixpoint let_free (e : Expr) : bool :=
  match e with
  | EVar _ | EGlobalVar _ => true
  | ELet _ _ _ => false
  | EIf c t f => let_free c && let_free t && let_free f
  | EFunction _ body _ _ _ => let_free body
  | ECall op args _ _ =>
      let_free op
      && (fix all (l : list Expr) : bool :=
            match l with
            | [] => true
            | a :: rest => let_free a && all rest
            end) args
  end.

(** What does not change when [Inline] rewrites a function. *)
Definition signature (f : Function)
    : list Var * RelayType * list nat * bool :=
  (IR.params f, ret_type f, type_params f, primitive f).

(** Code that a visit may have emitted from a compiler holding [base]
    lowered kernels, together with the kernels [lf] it lowered: no [Ret]
    and no [Invoke], the kernel indices counting up from [base], one per
    kernel, and every arity below the cap. *)
Definition well_indexed (base : Z) (code : list Instruction)
    (lf : list Compiler.LoweredFunc) : Prop :=
  forallb is_body_instruction code = true
  /\ map fst (kernel_calls code) = seqZ base (SizeT.size lf)
  /\ Forall (fun call => 0 <= snd call < 10) (kernel_calls code).

(** [fn (c, x, y) { if c then x else y }] *)
Definition choose : Function :=
  mkFunction [0%nat; 1%nat; 2%nat] (EIf (EVar 0%nat) (EVar 1%nat) (EVar 2%nat))
    (OtherType 0) [] false.

End Analysis.

(** ** Let-bound callees, by scope *)

Module Scope.
Import IR Inliner.

Definition is_let (e : Expr) : bool :=
  match e with ELet _ _ _ => true | _ => false end.

(** The variables bound by the let-expressions of [e], in the order in
    which a traversal from left to right meets them. *)
Fixpoint binders (e : Expr) : list Var :=
  match e with
  | EVar _ | EGlobalVar _ => []
  | ELet v value body => binders value ++ v :: binders body
  | EIf c t f => binders c ++ binders t ++ binders f
  | EFunction _ body _ _ _ => binders body
  | ECall op args _ _ => binders op ++ concat (map binders args)
  end.

Definition module_binders (m : Module) : list Var :=
  concat (map (fun gf => binders (body (snd gf))) m).

(** A let-bound value that makes its variable stand for a callee: a
    primitive function literal, a global reference, or a variable that
    already stands for one. *)
Definition callee_like (S : gset Var) (value : Expr) : bool :=
  match value with
  | EVar w => bool_decide (w ∈ S)
  | _ => is_primitive_function value || is_global value
  end.

(** The callee variables in the body of [let v = value]. *)
Definition bind_callee (S : gset Var) (v : Var) (value : Expr) : gset Var :=
  if callee_like S value then S ∪ {[v]} else S ∖ {[v]}.

(** [calls_resolved S e]: no call of [e] has as operator a variable of
    [S], or one that an enclosing let of [e] ties, directly or through
    aliases, to a primitive function literal or a global reference; a
    parameter hides a variable of the same name.  The bodies of primitive
    functions, and the arguments of calls whose operator is a primitive
    literal or a global reference, are not looked into. *)
Fixpoint calls_resolved (S : gset Var) (e : Expr) : bool :=
  match e with
  | EVar _ | EGlobalVar _ => true
  | ELet v value body =>
      calls_resolved S value && calls_resolved (bind_callee S v value) body
  | EIf c t f => calls_resolved S c && calls_resolved S t && calls_resolved S f
  | EFunction ps body _ _ prim =>
      prim || calls_resolved (S ∖ list_to_set ps) body
  | ECall op args _ _ =>
      match op with
      | EVar v => negb (bool_decide (v ∈ S)) && forallb (calls_resolved S) args
      | _ =>
          is_primitive_function op || is_global op
          || (calls_resolved S op && forallb (calls_resolved S) args)
      end
  end.

Definition module_calls_resolved (m : Module) : bool :=
  forallb (fun gf => calls_resolved ∅ (body (snd gf))) m.

(** [flat e]: no let-expression stands directly as the value of a let or
    as the operator of a call, in the positions [calls_resolved] looks
    into. *)
Fixpoint flat (e : Expr) : bool :=
  match e with
  | EVar _ | EGlobalVar _ => true
  | ELet _ value body => negb (is_let value) && flat value && flat body
  | EIf c t f => flat c && flat t && flat f
  | EFunction _ body _ _ prim => prim || flat body
  | ECall op args _ _ =>
      is_primitive_function op || is_global op
      || (negb (is_let op) && flat op && forallb flat args)
  end.

Definition module_flat (m : Module) : bool :=
  forallb (fun gf => flat (body (snd gf))) m.


(** [fn (x) { let p = prim; p(p(x)) }] *)
Definition nested_call : Function :=
  mkFunction [0%nat]
    (ELet 1%nat Examples.prim
       (ECall (EVar 1%nat) [ECall (EVar 1%nat) [EVar 0%nat] 0%nat []] 0%nat []))
    Examples.tensor4 [] false.


(** [fn (x) { let p = x; let p = prim; p(x) }] *)
Definition rebound_variable : Function :=
  mkFunction [0%nat]
    (ELet 1%nat (EVar 0%nat)
       (ELet 1%nat Examples.prim (ECall (EVar 1%nat) [EVar 0%nat] 0%nat [])))
    Examples.tensor4 [] false.

End Scope.

(** * Properties *)

(** ** The printer *)

Section Printer.
Import IR Bytecode.
Local Open Scope Z_scope.

Lemma append_assoc (a b c : string) : (a +:+ b) +:+ c = a +:+ b +:+ c.
Proof.
  induction a as [|ch a IH]; [reflexivity |].
  change (String ch ((a +:+ b) +:+ c) = String ch (a +:+ b +:+ c)).
  by rewrite IH.
Qed.

(** For [Push], [Ret] and [InvokePacked] the printer writes the
    documented form. *)
Lemma InstructionPrint_documented (instr : Instruction) :
  match instr with
  | Push _ | Ret | InvokePacked _ _ =>
      InstructionPrint instr = Some (spec_text instr)
  | _ => True
  end.
Proof. destruct instr; simpl; auto. Qed.

(** The [If] case has no [break]: whatever the offsets, the text of the
    [Invoke] case follows the documented form. *)
Lemma InstructionPrint_If (t f : Z) :
  InstructionPrint (If t f)
  = Some (spec_text (If t f) +:+ "invoke " +:+ pretty f).
Proof.
  unfold InstructionPrint, print_invoke_case, spec_text; simpl.
  f_equal. by rewrite !append_assoc.
Qed.

(** The [Invoke] case does not read [func_index]. *)
Lemma InstructionPrint_Invoke (i : Z) : InstructionPrint (Invoke i) = None.
Proof. reflexivity. Qed.

(** C8.  The printer does not write the documented form of an [If]: for
    [If 1 2] it writes [if 1 2invoke 2], not [if 1 2]; and for an
    [Invoke] it reads a field that is not the function index. *)
Theorem InstructionPrint_If_runs_into_Invoke :
  InstructionPrint (If 1 2) = Some "if 1 2invoke 2"
  /\ spec_text (If 1 2) = "if 1 2"
  /\ InstructionPrint (Invoke 7) <> Some (spec_text (Invoke 7)).
Proof. repeat split; try reflexivity. discriminate. Qed.

End Printer.

(** ** The interpreter *)

Section Interpreter.
Import IR Bytecode Runtime VM.
Local Open Scope Z_scope.

Lemma size_app {A : Type} (u v : list A) :
  SizeT.size (u ++ v) = SizeT.size u + SizeT.size v.
Proof. unfold SizeT.size. rewrite length_app. lia. Qed.

Lemma size_nonneg {A : Type} (v : list A) : 0 <= SizeT.size v.
Proof. unfold SizeT.size. lia. Qed.

Lemma size_cons {A : Type} (x : A) (v : list A) :
  SizeT.size (x :: v) = 1 + SizeT.size v.
Proof. unfold SizeT.size. simpl. lia. Qed.

Lemma add_small (a b : Z) :
  0 <= a + b < SizeT.modulus -> SizeT.add a b = a + b.
Proof. intros H. unfold SizeT.add. by apply Z.mod_small. Qed.

Lemma sub_small (a b : Z) :
  0 <= a - b < SizeT.modulus -> SizeT.sub a b = a - b.
Proof. intros H. unfold SizeT.sub. by apply Z.mod_small. Qed.

Lemma read_nonneg {A : Type} (v : list A) (i : Z) :
  0 <= i ->
  read v i = match v !! Z.to_nat i with
             | Some x => OK x
             | None => Error (Undefined "read outside the vector")
             end.
Proof.
  intros Hi. unfold read.
  by replace (i <? 0) with false by (symmetry; apply Z.ltb_ge; lia).
Qed.

Lemma write_inside {A : Type} (v : list A) (i : Z) (x : A) :
  0 <= i < SizeT.size v -> write v i x = OK (<[Z.to_nat i := x]> v).
Proof.
  intros Hi. unfold write.
  replace (0 <=? i) with true by (symmetry; apply Z.leb_le; lia).
  by replace (i <? SizeT.size v) with true by (symmetry; apply Z.ltb_lt; lia).
Qed.

Lemma read_app_r {A : Type} (u v : list A) (i : Z) :
  0 <= i -> read (u ++ v) (SizeT.size u + i) = read v i.
Proof.
  intros Hi. pose proof (size_nonneg u) as Hu.
  rewrite !read_nonneg by lia. unfold SizeT.size.
  replace (Z.to_nat (Z.of_nat (length u) + i)) with (length u + Z.to_nat i)%nat by lia.
  by rewrite lookup_app_r, Nat.add_comm, Nat.add_sub by lia.
Qed.

Lemma read_last {A : Type} (u : list A) (x : A) :
  read (u ++ [x]) (SizeT.size u) = OK x.
Proof.
  replace (SizeT.size u) with (SizeT.size u + 0) by lia.
  by rewrite read_app_r.
Qed.

Ltac bind_inv H :=
  repeat match type of H with
  | bind ?r _ = OK _ =>
      let E := fresh "E" in destruct r eqn:E; simpl in H; [| discriminate H]
  | (if ?b then _ else _) = OK _ =>
      let E := fresh "E" in destruct b eqn:E; try discriminate H
  | match ?x with _ => _ end = OK _ =>
      let E := fresh "E" in destruct x eqn:E; try discriminate H
  end.

(** C10.  A step on any instruction other than [Ret] leaves the frame
    stack, the base pointer, the function index and the code pointer as
    they were. *)
Theorem step_keeps_frame_registers (stack_start : Z) (vm : VirtualMachine)
    (mem : Memory) (instr : Instruction) (s : Step) :
  fetch vm = OK instr ->
  instr <> Ret ->
  step stack_start vm mem = OK s ->
  frames (machine_of s) = frames vm
  /\ bp (machine_of s) = bp vm
  /\ func_index (machine_of s) = func_index vm
  /\ code (machine_of s) = code vm.
Proof.
  intros Hfetch Hret Hstep. unfold step in Hstep. rewrite Hfetch in Hstep.
  simpl in Hstep. destruct instr; try congruence; bind_inv Hstep;
    injection Hstep as <-; simpl; auto.
Qed.

Lemma step_keeps_frame_registers_witness :
  let vm := mkVM [] [] [] [VMTensor 0%nat] 0 (Some [Push 0; Ret]) 0 0 in
  exists s, step 1 vm [] = OK s /\ frames (machine_of s) = frames vm
  /\ bp (machine_of s) = bp vm
  /\ func_index (machine_of s) = func_index vm
  /\ code (machine_of s) = code vm.
Proof.
  intros vm. eexists. split; [reflexivity |].
  apply (step_keeps_frame_registers 1 vm [] (Push 0));
    [reflexivity | discriminate | reflexivity].
Defined.

Lemma packed_args_tensors (below : list VMObject) (values : list NDArray)
    (done : list NDArray) :
  SizeT.size (below ++ map VMTensor (done ++ values)) < SizeT.modulus ->
  packed_args (below ++ map VMTensor (done ++ values)) (SizeT.size below)
    (SizeT.size done) (length values) = OK values.
Proof.
  revert done. induction values as [|v values IH]; intros done Hsize; [reflexivity |].
  simpl.
  assert (Hlen : SizeT.size (below ++ map VMTensor (done ++ v :: values))
                 = SizeT.size below + SizeT.size done + 1 + SizeT.size values).
  { rewrite size_app. unfold SizeT.size. rewrite length_map, length_app. simpl. lia. }
  pose proof (size_nonneg below). pose proof (size_nonneg done).
  pose proof (size_nonneg values).
  rewrite add_small by lia.
  rewrite read_app_r by lia.
  rewrite read_nonneg by lia. rewrite list_lookup_fmap.
  replace (Z.to_nat (SizeT.size done)) with (length done) by (unfold SizeT.size; lia).
  rewrite lookup_app_r, Nat.sub_diag by lia. simpl.
  specialize (IH (done ++ [v])).
  rewrite <- app_assoc in IH. simpl in IH.
  replace (SizeT.size (done ++ [v])) with (SizeT.size done + 1) in IH
    by (rewrite size_app; reflexivity).
  by rewrite IH.
Qed.

(** C3.  [InvokePacked i n] with the [n] kernel arguments on top of the
    stack, the output tensor last: the kernel [i] is called on them, the
    slot of the first argument receives the top value, the stack loses
    [n - 1] slots and the program counter moves on by one. *)
Theorem InvokePacked_collapses_arguments (stack_start : Z) (vm : VirtualMachine)
    (mem mem' : Memory) (i n : Z) (func : PackedFunc)
    (below : list VMObject) (inputs : list NDArray) (out : NDArray) :
  fetch vm = OK (Bytecode.InvokePacked i n) ->
  read (packed_funcs vm) i = OK func ->
  stack vm = below ++ map VMTensor (inputs ++ [out]) ->
  n = SizeT.size (inputs ++ [out]) ->
  SizeT.size (stack vm) < SizeT.modulus ->
  func mem (inputs ++ [out]) = Some mem' ->
  exists vm',
    step stack_start vm mem = OK (Continue vm' mem')
    /\ stack vm' = below ++ [VMTensor out]
    /\ SizeT.size (stack vm') = SizeT.size (stack vm) - (n - 1)
    /\ pc vm' = SizeT.add (pc vm) 1.
Proof.
  intros Hfetch Hfunc Hstack Hn Hsize Hcall.
  pose proof (size_nonneg below) as Hb. pose proof (size_nonneg inputs) as Hi.
  assert (Hargs : SizeT.size (map VMTensor (inputs ++ [out])) = n).
  { subst n. unfold SizeT.size. by rewrite length_map. }
  assert (Hn' : n = SizeT.size inputs + 1) by (subst n; by rewrite size_app).
  assert (Htotal : SizeT.size (stack vm) = SizeT.size below + n).
  { rewrite Hstack, size_app. lia. }
  unfold step. rewrite Hfetch. simpl. rewrite Hfunc. simpl.
  unfold InvokePacked.
  replace (n <=? SizeT.size (stack vm)) with true by (symmetry; apply Z.leb_le; lia).
  simpl.
  rewrite (sub_small (SizeT.size (stack vm)) n) by lia.
  replace (SizeT.size (stack vm) - n) with (SizeT.size below) by lia.
  replace (Z.to_nat n) with (length (inputs ++ [out])) by (subst n; unfold SizeT.size; lia).
  rewrite Hstack.
  pose proof (packed_args_tensors below (inputs ++ [out]) []) as Hpa.
  change (SizeT.size (@nil NDArray)) with 0 in Hpa. simpl app in Hpa.
  rewrite Hpa by (rewrite <- Hstack; lia). simpl.
  rewrite Hcall.
  rewrite <- Hstack, sub_small by lia. rewrite Hstack.
  rewrite map_app, app_assoc. simpl.
  replace (SizeT.size ((below ++ map VMTensor inputs) ++ [VMTensor out]) - 1)
    with (SizeT.size (below ++ map VMTensor inputs))
    by (rewrite (size_app (below ++ map VMTensor inputs)); unfold SizeT.size; simpl; lia).
  rewrite read_last. simpl.
  rewrite write_inside
    by (rewrite !size_app; unfold SizeT.size; simpl; lia).
  simpl.
  rewrite add_small by lia.
  set (stack' := resize _ _ _).
  assert (Hres : stack' = below ++ [VMTensor out]).
  { subst stack'.
    replace (Z.to_nat (SizeT.size below + 1)) with (length below + 1)%nat
      by (unfold SizeT.size; lia).
    replace (Z.to_nat (SizeT.size below)) with (length below + 0)%nat
      by (unfold SizeT.size; lia).
    rewrite <- app_assoc.
    rewrite insert_app_r.
    rewrite resize_app_ge by lia.
    f_equal. rewrite Nat.add_comm, Nat.add_sub.
    destruct inputs; simpl; [reflexivity | by rewrite resize_0]. }
  rewrite Hres.
  replace (SizeT.size below + 1 =? SizeT.size (below ++ [VMTensor out])) with true
    by (symmetry; apply Z.eqb_eq; by rewrite size_app).
  eexists. split; [reflexivity |]. simpl.
  split; [reflexivity |]. split; [| reflexivity].
  subst n. rewrite !size_app. unfold SizeT.size.
  rewrite ?length_map, ?length_app. simpl. lia.
Qed.

Lemma InvokePacked_collapses_arguments_witness :
  let kernel : PackedFunc := fun m _ => Some m in
  let vm := mkVM [] [kernel] [] [VMNull; VMTensor 0%nat; VMTensor 1%nat; VMTensor 2%nat]
              0 (Some [Bytecode.InvokePacked 0 3; Ret]) 0 1 in
  exists vm',
    step 1 vm [] = OK (Continue vm' [])
    /\ stack vm' = [VMNull] ++ [VMTensor 2%nat]
    /\ SizeT.size (stack vm') = SizeT.size (stack vm) - (3 - 1)
    /\ pc vm' = SizeT.add (pc vm) 1.
Proof.
  intros kernel vm.
  apply (InvokePacked_collapses_arguments 1 vm [] [] 0 3 kernel [VMNull]
           [0%nat; 1%nat] 2%nat); reflexivity.
Defined.

(** What [PopFrame] does when the callee has pushed its result above the
    arguments: the result lands in the slot above the reserved one, which
    stays as it was. *)
Lemma PopFrame_keeps_return_slot (vm : VirtualMachine) (fs : list VMFrame.t)
    (fr : VMFrame.t) (below args : list VMObject) (slot result : VMObject) :
  frames vm = fs ++ [fr] ->
  stack vm = below ++ [slot] ++ args ++ [result] ->
  VMFrame.args fr = SizeT.size args ->
  SizeT.size (stack vm) < SizeT.modulus ->
  exists vm',
    PopFrame vm = OK (SizeT.size (frames vm), vm')
    /\ stack vm' = below ++ [slot] ++ [result]
    /\ frames vm' = fs.
Proof.
  intros Hframes Hstack Hargs Hsize.
  pose proof (size_nonneg below) as Hb. pose proof (size_nonneg args) as Ha.
  assert (Htotal : SizeT.size (stack vm) = SizeT.size below + 1 + SizeT.size args + 1).
  { rewrite Hstack, !size_app. unfold SizeT.size. simpl. lia. }
  unfold PopFrame. rewrite Hframes, last_snoc, Hargs.
  rewrite (sub_small (SizeT.size (stack vm)) (SizeT.size args)) by lia.
  rewrite !sub_small by lia.
  replace (SizeT.size (stack vm) - SizeT.size args - 1 <? SizeT.size (stack vm))
    with true by (symmetry; apply Z.ltb_lt; lia).
  simpl.
  assert (Hread : read (stack vm) (SizeT.size (stack vm) - 1) = OK result).
  { rewrite Hstack at 1.
    replace (below ++ [slot] ++ args ++ [result])
      with ((below ++ [slot] ++ args) ++ [result]) by (by rewrite <- !app_assoc).
    replace (SizeT.size (stack vm) - 1) with (SizeT.size (below ++ [slot] ++ args))
      by (rewrite Htotal, !size_app; unfold SizeT.size; simpl; lia).
    apply read_last. }
  rewrite Hread. simpl. rewrite write_inside by lia.
  simpl. eexists. split; [reflexivity |]. simpl.
  split; [| by rewrite removelast_last].
  replace (Z.to_nat (SizeT.size (stack vm) - SizeT.size args - 1))
    with (length (below ++ [slot]) + 0)%nat
    by (rewrite Htotal, length_app; unfold SizeT.size; simpl; lia).
  replace (Z.to_nat (SizeT.size (stack vm) - SizeT.size args))
    with (length (below ++ [slot]) + 1)%nat
    by (rewrite Htotal, length_app; unfold SizeT.size; simpl; lia).
  rewrite Hstack.
  replace (below ++ [slot] ++ args ++ [result])
    with ((below ++ [slot]) ++ args ++ [result]) by (by rewrite <- !app_assoc).
  rewrite insert_app_r, resize_app_ge by lia.
  rewrite <- app_assoc. do 2 f_equal.
  rewrite Nat.add_comm, Nat.add_sub.
  destruct args; simpl; [reflexivity | by rewrite resize_0].
Qed.

(** C2.  The identity function [push 0; ret] called on one tensor from an
    empty stack: [Ret] writes the slot [bp], not the reserved slot
    [bp - 1], and the call leaves two slots on the stack, the reserved
    one still empty under the result. *)
Theorem Ret_misses_the_return_slot :
  let func := mkVMFunction 1 [Push 0; Ret] in
  let arg := VMTensor 0%nat in
  let vm := mkVM [func] [] [] [] 0 None 0 0 in
  exists vm1 vm2 vm3,
    InvokeGlobal vm func [arg] = OK vm1
    /\ stack vm1 = [VMNull; arg] /\ bp vm1 = 1
    /\ step 1 vm1 [] = OK (Continue vm2 [])
    /\ stack vm2 = [VMNull; arg; arg]
    /\ step 1 vm2 [] = OK (Return vm3 [])
    /\ stack vm3 = [VMNull; arg]
    /\ Invoke 2 vm [] func [arg] = Finished (arg, vm3, [])
    /\ SizeT.size (stack vm3) = SizeT.size (stack vm) + 2.
Proof.
  intros func arg vm. do 3 eexists.
  split; [reflexivity |]. split; [reflexivity |]. split; [reflexivity |].
  split; [reflexivity |]. split; [reflexivity |]. split; [reflexivity |].
  split; [reflexivity |]. split; reflexivity.
Qed.

End Interpreter.

(** ** Induction over expressions, arguments included *)

Section ExprInduction.
Import IR.

Variable P : Expr -> Prop.
Hypothesis HVar : forall v, P (EVar v).
Hypothesis HGlobal : forall g, P (EGlobalVar g).
Hypothesis HLet : forall v value body, P value -> P body -> P (ELet v value body).
Hypothesis HIf : forall c t f, P c -> P t -> P f -> P (EIf c t f).
Hypothesis HFunction :
  forall ps body rt tps prim, P body -> P (EFunction ps body rt tps prim).
Hypothesis HCall :
  forall op args attrs targs, P op -> Forall P args -> P (ECall op args attrs targs).

Lemma Expr_induction : forall e, P e.
Proof using All.
  fix IH 1. intros [v|g|v value body|c t f|ps body rt tps prim|op args attrs targs].
  - apply HVar.
  - apply HGlobal.
  - apply HLet; apply IH.
  - apply HIf; apply IH.
  - apply HFunction; apply IH.
  - apply HCall; [apply IH |].
    induction args as [|a args IHargs]; constructor; [apply IH | exact IHargs].
Qed.

End ExprInduction.

(** ** The bytecode compiler *)

Section CompilerFacts.
Import IR Bytecode Runtime Compiler.
Local Open Scope Z_scope.

Ltac bind_inv H :=
  repeat match type of H with
  | bind ?r _ = OK _ =>
      let E := fresh "E" in destruct r eqn:E; simpl in H; [| discriminate H]
  | (if ?b then _ else _) = OK _ =>
      let E := fresh "E" in destruct b eqn:E; try discriminate H
  | match ?x with _ => _ end = OK _ =>
      let E := fresh "E" in destruct x eqn:E; try discriminate H
  end.

Lemma compile_call_unfold (eng : Engine) (c : VMCompiler) (op : Expr)
    (args : list Expr) (attrs : nat) (targs : list RelayType) :
  VisitExpr eng c (ECall op args attrs targs)
  = match op with
    | EFunction ps _ _ _ prim =>
        do c1 <- visit_args eng c args;
        emit_call eng c1 (ECall op args attrs targs) op (SizeT.size ps) prim
    | _ => Error OperatorNotFunction
    end.
Proof. destruct op; reflexivity. Qed.

Lemma bind_params_instructions (ps : list Var) (c : VMCompiler) :
  instructions (fold_left bind_param ps c) = instructions c.
Proof. revert c. induction ps as [|p ps IH]; intros c; simpl; [done | by rewrite IH]. Qed.

Lemma emit_call_extends (eng : Engine) (c c' : VMCompiler) (call op : Expr)
    (n : Z) (prim : bool) :
  emit_call eng c call op n prim = OK c' ->
  exists code, instructions c' = instructions c ++ code.
Proof.
  unfold emit_call. intros H. bind_inv H. injection H as <-. simpl.
  eexists. by rewrite <- app_assoc.
Qed.

(** A visit only adds instructions after those already emitted. *)
Lemma VisitExpr_extends (eng : Engine) (e : Expr) :
  forall c c', VisitExpr eng c e = OK c' ->
  exists code, instructions c' = instructions c ++ code.
Proof.
  induction e as [v|g|v value body IHv IHb|cond t f IHc IHt IHf
                 |ps body rt tps prim IHb|op args attrs targs IHop IHargs]
    using Expr_induction; intros c c' H.
  - simpl in H. bind_inv H. injection H as <-. simpl. eauto.
  - discriminate H.
  - discriminate H.
  - simpl in H. bind_inv H. injection H as <-.
    destruct (IHc _ _ E) as [code1 H1]. destruct (IHt _ _ E0) as [code2 H2].
    destruct (IHf _ _ E1) as [code3 H3]. simpl in H2.
    simpl. rewrite H3, H2.
    exists (patch_if (code1 ++ [If 0 0] ++ code2 ++ code3)
              (SizeT.size code1) 1
              (SizeT.sub (SizeT.size ((instructions a ++ [If 0 0]) ++ code2))
                 (SizeT.size (instructions a)))).
    unfold patch_if. rewrite H1.
    replace (Z.to_nat (SizeT.size (instructions c ++ code1)))
      with (length (instructions c) + Z.to_nat (SizeT.size code1))%nat
      by (unfold SizeT.size; rewrite length_app; lia).
    rewrite <- !app_assoc.
    by rewrite !alter_app_r.
  - simpl in H. destruct (seen_func c); [discriminate H |].
    destruct (IHb _ _ H) as [code Hc]. exists code.
    by rewrite Hc, bind_params_instructions.
  - rewrite compile_call_unfold in H. destruct op; try discriminate H.
    bind_inv H.
    assert (Hargs : exists code, instructions a = instructions c ++ code).
    { clear H IHop. revert c E. induction IHargs as [|arg args Harg _ IH]; intros c E.
      - injection E as <-. exists []. by rewrite app_nil_r.
      - simpl in E. bind_inv E. destruct (Harg _ _ E0) as [code1 H1].
        destruct (IH _ E) as [code2 H2]. exists (code1 ++ code2).
        by rewrite H2, H1, app_assoc. }
    destruct Hargs as [code1 H1]. destruct (emit_call_extends _ _ _ _ _ _ _ H) as [code2 H2].
    exists (code1 ++ code2). by rewrite H2, H1, app_assoc.
Qed.

(** C4.  Compiling a conditional: the [If] emitted after the condition
    ends up with true offset 1 and false offset one more than the number
    of instructions of the true branch, which is the distance between the
    position recorded after the true branch and the position of the [If]. *)
Theorem If_is_back_patched (eng : Engine) (c c' : VMCompiler) (cond t f : Expr) :
  VisitExpr eng c (EIf cond t f) = OK c' ->
  SizeT.size (instructions c') < SizeT.modulus ->
  exists c1 c3 c4 true_code false_code,
    VisitExpr eng c cond = OK c1
    /\ VisitExpr eng (Emit c1 (If 0 0)) t = OK c3
    /\ VisitExpr eng c3 f = OK c4
    /\ instructions c3 = instructions c1 ++ [If 0 0] ++ true_code
    /\ instructions c4 = instructions c3 ++ false_code
    /\ instructions c'
       = instructions c1 ++ [If 1 (SizeT.size true_code + 1)] ++ true_code ++ false_code
    /\ SizeT.size true_code + 1
       = SizeT.size (instructions c3) - SizeT.size (instructions c1).
Proof.
  intros H Hsize. simpl in H. bind_inv H. injection H as <-.
  rename a into c1, a0 into c3, a1 into c4.
  destruct (VisitExpr_extends _ _ _ _ E0) as [true_code Ht].
  destruct (VisitExpr_extends _ _ _ _ E1) as [false_code Hf].
  simpl in Ht. rewrite <- app_assoc in Ht.
  exists c1, c3, c4, true_code, false_code.
  assert (Hq : SizeT.size true_code + 1
               = SizeT.size (instructions c3) - SizeT.size (instructions c1)).
  { rewrite Ht, !size_app. unfold SizeT.size. simpl. lia. }
  assert (Hsize' : SizeT.size (instructions c4) < SizeT.modulus).
  { revert Hsize. simpl. unfold patch_if, SizeT.size. by rewrite !length_alter. }
  repeat split; auto. simpl.
  pose proof (size_nonneg true_code). pose proof (size_nonneg false_code).
  pose proof (size_nonneg (instructions c1)).
  assert (Hc4 : SizeT.size (instructions c4)
                = SizeT.size (instructions c1) + 1 + SizeT.size true_code
                  + SizeT.size false_code).
  { rewrite Hf, Ht, !size_app. unfold SizeT.size. simpl. lia. }
  rewrite sub_small by lia. rewrite <- Hq.
  unfold patch_if. rewrite Hf, Ht.
  replace (Z.to_nat (SizeT.size (instructions c1)))
    with (length (instructions c1) + 0)%nat by (unfold SizeT.size; lia).
  rewrite <- !app_assoc. by rewrite !alter_app_r.
Qed.

(** C6.  A call of a primitive whose arguments, result type and kernel
    pass the earlier checks stops on the capacity limit exactly when its
    arity, the number of parameters plus one, is at least 10; below that
    the call compiles. *)
Theorem arity_is_capped (eng : Engine) (c c1 : VMCompiler) (ps : list Var)
    (body : Expr) (rt : RelayType) (tps : list nat) (args : list Expr)
    (attrs : nat) (targs : list RelayType) (sh : list IndexExpr)
    (dt : DataType) (shapes : list Z) (lowered : LoweredFunc) :
  let op := EFunction ps body rt tps true in
  let call := ECall op args attrs targs in
  visit_args eng c args = OK c1 ->
  checked_type eng call = Some (TensorType sh dt) ->
  static_shape sh = OK shapes ->
  Lower eng op = Some [lowered] ->
  SizeT.size ps + 1 < SizeT.modulus ->
  (VisitExpr eng c call = Error CapacityLimit <-> 10 <= SizeT.size ps + 1)
  /\ (SizeT.size ps + 1 < 10 ->
      VisitExpr eng c call
      = OK (Emit (push_lowered (Emit c1 (AllocTensor shapes dt)) lowered)
              (InvokePacked (SizeT.size (lowered_funcs c1)) (SizeT.size ps + 1)))).
Proof.
  intros op call Hargs Hty Hsh Hlow Hsize.
  pose proof (size_nonneg ps) as Hps.
  assert (Hvisit : VisitExpr eng c call
                   = if SizeT.size ps + 1 <? 10
                     then OK (Emit (push_lowered (Emit c1 (AllocTensor shapes dt)) lowered)
                                (InvokePacked (SizeT.size (lowered_funcs c1))
                                   (SizeT.size ps + 1)))
                     else Error CapacityLimit).
  { subst call. rewrite compile_call_unfold. subst op. cbv beta iota zeta.
    rewrite Hargs. simpl. unfold emit_call. rewrite Hty, Hsh. simpl.
    rewrite Hlow. by rewrite add_small by lia. }
  rewrite Hvisit. split.
  - destruct (Z.ltb_spec (SizeT.size ps + 1) 10); split; intros; try lia; try done.
  - intros Hlt. by replace (SizeT.size ps + 1 <? 10) with true
      by (symmetry; apply Z.ltb_lt; lia).
Qed.

(** C5.  The identity function over a 2 by 2 float tensor compiles to
    [push 0; ret], and the machine linked from it returns the very tensor
    it is called on, leaving the memory as it was. *)
Theorem identity_function_round_trip (eng : Engine) (x : Var) (g : GlobalVar) :
  let float32 := mkDataType kDLFloat 32 1 in
  let func := mkFunction [x] (EVar x) (TensorType [IntImm 2; IntImm 2] float32) [] false in
  let code := mkVMFunction 1 [Push 0; Ret] in
  CompileFunc eng func = OK ([], code)
  /\ exists vm,
      Linker.CompileModule eng [(g, func)] = OK vm
      /\ VM.functions vm = [code]
      /\ forall (mem : Memory) (t : NDArray) (k : nat),
           exists vm',
             VM.Invoke (2 + k) vm mem code [VMTensor t]
             = VM.Finished (VMTensor t, vm', mem).
Proof.
  intros float32 func code.
  assert (Hc : CompileFunc eng func = OK ([], code)).
  { unfold CompileFunc, func, as_expr. simpl.
    unfold bind_param. simpl. rewrite lookup_empty, lookup_insert_eq. reflexivity. }
  split; [exact Hc |].
  unfold Linker.CompileModule. simpl. rewrite Hc. simpl.
  eexists. split; [reflexivity |]. split; [reflexivity |].
  intros mem t k. eexists. reflexivity.
Qed.

End CompilerFacts.

(** ** The primitive inliner *)

Section InlinerFacts.
Import IR Inliner.

Lemma inline_call_unfold (m : gmap Var Expr) (op : Expr) (args : list Expr)
    (attrs : nat) (targs : list RelayType) :
  VisitExpr m (ECall op args attrs targs)
  = match collapse_chain m op with
    | None => None
    | Some r =>
        match inlined_call r args attrs targs with
        | Some call' => Some (call', m)
        | None =>
            match VisitExpr m op with
            | None => None
            | Some (op', m1) =>
                match visit_args m1 args with
                | None => None
                | Some (args', m2) => Some (ECall op' args' attrs targs, m2)
                end
            end
        end
    end.
Proof. reflexivity. Qed.

Lemma collapse_not_var (fuel : nat) (m : gmap Var Expr) (op : Expr) :
  is_var op = false -> collapse fuel m op = Some (Resolved op).
Proof. destruct op, fuel; simpl; congruence. Qed.

Lemma inlined_call_Some (r : Collapsed) (args : list Expr) (attrs : nat)
    (targs : list RelayType) (call' : Expr) :
  inlined_call r args attrs targs = Some call' ->
  exists op, r = Resolved op /\ ends_in_callee r = true
             /\ call' = ECall op args attrs targs.
Proof.
  destruct r as [op|]; simpl; [| discriminate].
  destruct (is_primitive_function op) eqn:Hp; simpl.
  - intros [= <-]. eauto.
  - destruct (is_global op) eqn:Hg; [| discriminate]. intros [= <-]. eauto.
Qed.

Lemma inlined_call_None (r : Collapsed) (args : list Expr) (attrs : nat)
    (targs : list RelayType) :
  inlined_call r args attrs targs = None <-> ends_in_callee r = false.
Proof.
  destruct r as [op|]; simpl; [| done].
  destruct (is_primitive_function op), (is_global op); simpl; split; congruence.
Qed.

(** *** The bound on the alias chain is exact *)

Lemma collapse_chain_iff (k : nat) (m : gmap Var Expr) :
  forall op r,
  collapse k m op = Some r <-> exists vs, chain m op vs r /\ length vs <= k.
Proof.
  induction k as [|k IH]; intros op r; split.
  - destruct op as [v| | | | |]; simpl;
      try (intros [= <-]; exists []; split; [by constructor | done]).
    destruct (m !! v) eqn:Hv; [discriminate |].
    intros [= <-]. exists []. split; [by constructor | done].
  - intros (vs & Hc & Hlen). destruct Hc; simpl in Hlen; try lia.
    + by apply collapse_not_var.
    + simpl. by rewrite H.
  - destruct op as [v| | | | |]; simpl;
      try (intros [= <-]; exists []; split; [by constructor | simpl; lia]).
    destruct (m !! v) as [e|] eqn:Hv.
    + intros H. apply IH in H as (vs & Hc & Hlen).
      exists (v :: vs). split; [by econstructor | simpl; lia].
    + intros [= <-]. exists []. split; [by constructor | simpl; lia].
  - intros (vs & Hc & Hlen). destruct Hc; simpl in Hlen.
    + by apply collapse_not_var.
    + simpl. by rewrite H.
    + simpl. rewrite H. apply IH. exists vs. split; [done | lia].
Qed.

Lemma chain_deterministic (m : gmap Var Expr) (op : Expr) (vs vs' : list Var)
    (r r' : Collapsed) :
  chain m op vs r -> chain m op vs' r' -> vs = vs' /\ r = r'.
Proof.
  intros H. revert vs' r'.
  induction H as [op Hop|v Hv|v e vs r Hv Hc IH]; intros vs' r' H'.
  - inversion H' as [op' Hop'|v' Hv'|v' e' vs'' r'' Hv' Hc']; subst;
      try discriminate Hop. done.
  - inversion H' as [op' Hop'|v' Hv'|v' e' vs'' r'' Hv' Hc']; subst;
      [discriminate Hop' | done | congruence].
  - inversion H' as [op' Hop'|v' Hv'|v' e' vs'' r'' Hv' Hc']; subst;
      [discriminate Hop' | congruence |].
    rewrite Hv in Hv'. injection Hv' as <-.
    destruct (IH _ _ Hc') as [-> ->]. done.
Qed.

Lemma chain_suffix (m : gmap Var Expr) (vs1 vs2 : list Var) (v : Var) :
  forall op r, chain m op (vs1 ++ v :: vs2) r -> chain m (EVar v) (v :: vs2) r.
Proof.
  induction vs1 as [|a vs1 IH]; intros op r H; simpl in H.
  - inversion H; subst. done.
  - inversion H; subst. eauto.
Qed.

Lemma chain_NoDup (m : gmap Var Expr) (op : Expr) (vs : list Var) (r : Collapsed) :
  chain m op vs r -> NoDup vs.
Proof.
  induction 1 as [op Hop|v Hv|v e vs r Hv Hc IH]; try constructor; [| done].
  intros Hin. apply list_elem_of_split in Hin as (vs1 & vs2 & ->).
  pose proof (chain_suffix _ _ _ _ _ _ Hc) as Hs.
  pose proof (chain_step _ _ _ _ _ Hv Hc) as Hfull.
  destruct (chain_deterministic _ _ _ _ _ _ Hs Hfull) as [Heq _].
  injection Heq as Heq. apply (f_equal length) in Heq.
  rewrite length_app in Heq. simpl in Heq. lia.
Qed.

Lemma chain_bound (m : gmap Var Expr) (op : Expr) (vs : list Var) (r : Collapsed) :
  chain m op vs r -> length vs <= size m.
Proof.
  intros H.
  assert (Hdom : forall v, v ∈ vs -> v ∈ dom m).
  { clear -H. induction H as [op Hop|v Hv|v e vs r Hv Hc IH]; intros x Hx.
    - by apply elem_of_nil in Hx.
    - by apply elem_of_nil in Hx.
    - apply elem_of_cons in Hx as [-> | Hx]; [| by apply IH].
      apply elem_of_dom. eauto. }
  rewrite <- (size_list_to_set (C := gset Var)) by (eapply chain_NoDup, H).
  rewrite <- size_dom. apply subseteq_size.
  intros x Hx. apply elem_of_list_to_set in Hx. by apply Hdom.
Qed.

(** No amount of fuel beyond the size of the map changes the outcome of
    the loop: where [collapse_chain] has none, the source does not
    leave the loop. *)
Lemma collapse_fuel_adequate (k : nat) (m : gmap Var Expr) (op : Expr) :
  size m <= k -> collapse k m op = collapse_chain m op.
Proof.
  intros Hk. unfold collapse_chain.
  destruct (collapse k m op) as [r|] eqn:H1.
  - apply collapse_chain_iff in H1 as (vs & Hc & _).
    symmetry. apply collapse_chain_iff. exists vs. split; [done |].
    eapply chain_bound, Hc.
  - destruct (collapse (size m) m op) as [r|] eqn:H2; [| done].
    apply collapse_chain_iff in H2 as (vs & Hc & Hlen).
    assert (collapse k m op = Some r) as H3
      by (apply collapse_chain_iff; exists vs; split; [done | lia]).
    congruence.
Qed.

(** A visit keeps the kind of the node it is applied to. *)
Lemma VisitExpr_kind (m m' : gmap Var Expr) (e e' : Expr) :
  VisitExpr m e = Some (e', m') ->
  is_var e' = is_var e /\ is_global e' = is_global e
  /\ is_primitive_function e' = is_primitive_function e.
Proof.
  destruct e as [v|g|v value body|c t f|ps body rt tps prim|op args attrs targs].
  - simpl. by intros [= <- <-].
  - simpl. by intros [= <- <-].
  - simpl. destruct (VisitExpr m value) as [[value' m1]|]; [| discriminate].
    destruct (VisitExpr _ body) as [[body' m2]|]; [| discriminate].
    by intros [= <- <-].
  - simpl. destruct (VisitExpr m c) as [[c' m1]|]; [| discriminate].
    destruct (VisitExpr m1 t) as [[t' m2]|]; [| discriminate].
    destruct (VisitExpr m2 f) as [[f' m3]|]; [| discriminate].
    by intros [= <- <-].
  - simpl. destruct prim; [by intros [= <- <-] |].
    destruct (VisitExpr m body) as [[body' m1]|]; [| discriminate].
    by intros [= <- <-].
  - rewrite inline_call_unfold.
    destruct (collapse_chain m op) as [r|]; [| discriminate].
    destruct (inlined_call r args attrs targs) as [call'|] eqn:Hin.
    + apply inlined_call_Some in Hin as (x & _ & _ & ->). by intros [= <- <-].
    + destruct (VisitExpr m op) as [[op' m1]|]; [| discriminate].
      destruct (visit_args m1 args) as [[args' m2]|]; [| discriminate].
      by intros [= <- <-].
Qed.

(** The operator of one rewritten call: it is a variable exactly when it
    was one before and the loop over [var_map] does not end on a primitive
    function literal or a global reference; when the loop does end on
    one, that literal or reference is the new operator. *)
Lemma call_operator_after_inlining (m m' : gmap Var Expr) (op : Expr)
    (args : list Expr) (attrs : nat) (targs : list RelayType) (e' : Expr) :
  VisitExpr m (ECall op args attrs targs) = Some (e', m') ->
  exists r op' args',
    collapse_chain m op = Some r
    /\ e' = ECall op' args' attrs targs
    /\ is_var op' = is_var op && negb (ends_in_callee r)
    /\ (forall x, r = Resolved x -> ends_in_callee r = true -> op' = x).
Proof.
  rewrite inline_call_unfold.
  destruct (collapse_chain m op) as [r|] eqn:Hr; [| discriminate].
  destruct (inlined_call r args attrs targs) as [call'|] eqn:Hin.
  - intros [= <- <-].
    apply inlined_call_Some in Hin as (x & -> & Hends & ->).
    exists (Resolved x), x, args. repeat split.
    + rewrite Hends, andb_false_r. simpl in Hends.
      destruct x; simpl in *; congruence.
    + by intros ? [= <-] _.
  - destruct (VisitExpr m op) as [[op' m1]|] eqn:Hop; [| discriminate].
    destruct (visit_args m1 args) as [[args' m2]|]; [| discriminate].
    intros [= <- <-]. apply inlined_call_None in Hin.
    exists r, op', args'. repeat split.
    + apply VisitExpr_kind in Hop as (-> & _ & _). by rewrite Hin, andb_true_r.
    + intros; congruence.
Qed.

(** Visiting the outcome of a visit again, from the same map, changes
    neither the expression nor the map reached. *)
Lemma VisitExpr_idempotent (e : Expr) :
  forall m m' e', VisitExpr m e = Some (e', m') -> VisitExpr m e' = Some (e', m').
Proof.
  induction e as [v|g|v value body IHv IHb|c t f IHc IHt IHf
                 |ps body rt tps prim IHb|op args attrs targs IHop IHargs]
    using Expr_induction; intros m m' e' H.
  - simpl in H. by injection H as <- <-.
  - simpl in H. by injection H as <- <-.
  - simpl in H.
    destruct (VisitExpr m value) as [[value' m1]|] eqn:Hv; [| discriminate].
    destruct (VisitExpr _ body) as [[body' m2]|] eqn:Hb; [| discriminate].
    injection H as <- <-. simpl.
    by rewrite (IHv _ _ _ Hv), (IHb _ _ _ Hb).
  - simpl in H.
    destruct (VisitExpr m c) as [[c' m1]|] eqn:Hc; [| discriminate].
    destruct (VisitExpr m1 t) as [[t' m2]|] eqn:Ht; [| discriminate].
    destruct (VisitExpr m2 f) as [[f' m3]|] eqn:Hf; [| discriminate].
    injection H as <- <-. simpl.
    by rewrite (IHc _ _ _ Hc), (IHt _ _ _ Ht), (IHf _ _ _ Hf).
  - simpl in H. destruct prim.
    + by injection H as <- <-.
    + destruct (VisitExpr m body) as [[body' m1]|] eqn:Hb; [| discriminate].
      injection H as <- <-. simpl. by rewrite (IHb _ _ _ Hb).
  - rewrite inline_call_unfold in H.
    destruct (collapse_chain m op) as [r|] eqn:Hr; [| discriminate].
    destruct (inlined_call r args attrs targs) as [call'|] eqn:Hin.
    + injection H as <- <-.
      pose proof Hin as Hin'.
      apply inlined_call_Some in Hin' as (x & -> & Hends & ->).
      rewrite inline_call_unfold. unfold collapse_chain.
      rewrite collapse_not_var by (destruct x; simpl in *; congruence).
      by rewrite Hin.
    + destruct (VisitExpr m op) as [[op' m1]|] eqn:Hop; [| discriminate].
      destruct (visit_args m1 args) as [[args' m2]|] eqn:Ha; [| discriminate].
      injection H as <- <-.
      assert (Hargs : visit_args m1 args' = Some (args', m2)).
      { clear Hin Hr Hop IHop. revert m1 m2 args' Ha.
        induction IHargs as [|a args Harg _ IH]; intros m1 m2 args' Ha.
        - simpl in Ha. by injection Ha as <- <-.
        - simpl in Ha.
          destruct (VisitExpr m1 a) as [[a' ma]|] eqn:Hva; [| discriminate].
          destruct (visit_args ma args) as [[rest' mb]|] eqn:Hvr; [| discriminate].
          injection Ha as <- <-. simpl.
          by rewrite (Harg _ _ _ Hva), (IH _ _ _ Hvr). }
      rewrite inline_call_unfold.
      assert (Hr' : collapse_chain m op' = Some r
                    \/ exists r', collapse_chain m op' = Some r'
                                  /\ ends_in_callee r' = false).
      { destruct (is_var op) eqn:Hvar.
        - left. destruct op; try discriminate Hvar. simpl in Hop.
          by injection Hop as <- <-.
        - right. exists (Resolved op').
          pose proof (VisitExpr_kind _ _ _ _ Hop) as (Hk1 & Hk2 & Hk3).
          unfold collapse_chain in *.
          rewrite collapse_not_var by congruence.
          rewrite collapse_not_var in Hr by done. injection Hr as <-.
          apply inlined_call_None in Hin. simpl in *. split; [done |].
          by rewrite Hk2, Hk3. }
      destruct Hr' as [-> | (r' & -> & Hends)].
      * apply inlined_call_None in Hin.
        apply (inlined_call_None _ args' attrs targs) in Hin. rewrite Hin.
        by rewrite (IHop _ _ _ Hop), Hargs.
      * apply (inlined_call_None _ args' attrs targs) in Hends. rewrite Hends.
        by rewrite (IHop _ _ _ Hop), Hargs.
Qed.

(** *** The two loops of [InlinePrimitives] on distinct names *)

Lemma Add_fresh (acc : Module) (g : GlobalVar) (f : Function) :
  g ∉ map fst acc -> Add acc g f = acc ++ [(g, f)].
Proof.
  induction acc as [|[g' f'] acc IH]; intros Hg; [reflexivity |].
  simpl in *. apply not_elem_of_cons in Hg as [Hne Hg].
  destruct (String.eqb_spec g g'); [done |]. by rewrite IH.
Qed.

Lemma Add_replace (pre post : Module) (g : GlobalVar) (f0 f : Function) :
  g ∉ map fst pre -> Add (pre ++ (g, f0) :: post) g f = pre ++ (g, f) :: post.
Proof.
  induction pre as [|[g' f'] pre IH]; intros Hg; simpl.
  - by rewrite String.eqb_refl.
  - simpl in Hg. apply not_elem_of_cons in Hg as [Hne Hg].
    destruct (String.eqb_spec g g'); [done |]. by rewrite IH.
Qed.

Lemma inline_in_order_keys (dce : Expr -> Expr) (fs : Module) :
  forall m fs' m', inline_in_order dce m fs = Some (fs', m') ->
  map fst fs' = map fst fs.
Proof.
  induction fs as [|[g f] fs IH]; intros m fs' m' H; simpl in H.
  - by injection H as <- <-.
  - destruct (Inline dce m f) as [[f' m1]|]; [| discriminate].
    destruct (inline_in_order dce m1 fs) as [[rest' m2]|] eqn:Hrest; [| discriminate].
    injection H as <- <-. simpl. f_equal. eauto.
Qed.

Lemma inline_functions_in_order (dce : Expr -> Expr) (fs : Module) :
  forall m acc, NoDup (map fst acc ++ map fst fs) ->
  inline_functions dce m fs acc
  = match inline_in_order dce m fs with
    | None => None
    | Some (fs', _) => Some (acc ++ fs')
    end.
Proof.
  induction fs as [|[g f] fs IH]; intros m acc Hnd; simpl.
  - by rewrite app_nil_r.
  - destruct (Inline dce m f) as [[f' m1]|]; [| reflexivity].
    simpl in Hnd. apply NoDup_app in Hnd as (Hacc & Hdisj & Hfs).
    rewrite Add_fresh by (intros Hin; apply (Hdisj _ Hin); left).
    rewrite IH.
    + destruct (inline_in_order dce m1 fs) as [[rest' m2]|]; [| reflexivity].
      by rewrite <- app_assoc.
    + rewrite map_app, <- app_assoc. simpl.
      apply NoDup_app. repeat split; auto.
Qed.

Lemma fold_Add_same_keys (fs' : Module) :
  forall m done, map fst fs' = map fst m ->
  NoDup (map fst done ++ map fst m) ->
  fold_left (fun md gf => Add md (fst gf) (snd gf)) fs' (done ++ m) = done ++ fs'.
Proof.
  induction fs' as [|[g f'] fs' IH]; intros m done Hkeys Hnd.
  - destruct m; [reflexivity | discriminate].
  - destruct m as [|[g0 f0] m]; [discriminate |].
    simpl in Hkeys. injection Hkeys as <- Hkeys. simpl.
    apply NoDup_app in Hnd as (Hdone & Hdisj & Hm).
    rewrite Add_replace by (intros Hin; apply (Hdisj _ Hin); left).
    replace (done ++ (g, f') :: m) with ((done ++ [(g, f')]) ++ m)
      by (by rewrite <- app_assoc).
    rewrite IH; [by rewrite <- app_assoc | done |].
    rewrite map_app, <- app_assoc. simpl.
    apply NoDup_app. repeat split; auto.
Qed.

(** On a module whose names are distinct, [InlinePrimitives] rewrites the
    functions in order and keeps them in place. *)
Lemma InlinePrimitives_in_order (dce : Expr -> Expr) (m : Module) :
  NoDup (map fst m) ->
  InlinePrimitives_with dce m
  = match inline_in_order dce ∅ m with
    | None => None
    | Some (fs', _) => Some fs'
    end.
Proof.
  intros Hnd. unfold InlinePrimitives_with.
  rewrite inline_functions_in_order by done.
  destruct (inline_in_order dce ∅ m) as [[fs' m']|] eqn:H; [| reflexivity].
  simpl. f_equal.
  apply (fold_Add_same_keys fs' m []).
  - eapply inline_in_order_keys, H.
  - done.
Qed.

Lemma inline_in_order_again (dce : Expr -> Expr) (fs : Module) :
  forall m fs1 m1 m2,
  inline_in_order dce m fs = Some (fs1, m1) ->
  inline_in_order (fun e => e) m fs = Some (fs1, m2) ->
  inline_in_order dce m fs1 = Some (fs1, m1).
Proof.
  induction fs as [|[g f] fs IH]; intros m fs1 m1 m2 H1 H2; simpl in *.
  - by injection H1 as <- <-.
  - unfold Inline in *.
    destruct (VisitExpr m (body f)) as [[b' ma]|] eqn:Hv; [| discriminate].
    destruct (inline_in_order dce ma fs) as [[rest1 mb]|] eqn:Hr1; [| discriminate].
    destruct (inline_in_order (fun e => e) ma fs) as [[rest2 mc]|] eqn:Hr2;
      [| discriminate].
    unfold FunctionNode_make in *.
    injection H1 as <- <-. injection H2 as Hdce -> <-.
    simpl. unfold Inline, FunctionNode_make. simpl. rewrite <- Hdce.
    rewrite (VisitExpr_idempotent _ _ _ _ Hv), <- Hdce.
    by rewrite (IH _ _ _ _ Hr1 Hr2).
Qed.

(** On a module with distinct names on which dead-code elimination finds
    nothing to remove in the rewritten bodies (the pass gives the same
    module with it and without it), applying the inliner to its own
    result returns that result. *)
Lemma inlining_again_changes_nothing (dce : Expr -> Expr) (m m1 : Module) :
  NoDup (map fst m) ->
  InlinePrimitives_with dce m = Some m1 ->
  InlinePrimitives_with (fun e => e) m = Some m1 ->
  InlinePrimitives_with dce m1 = Some m1.
Proof.
  intros Hnd H1 H2.
  rewrite InlinePrimitives_in_order in H1, H2 by done.
  destruct (inline_in_order dce ∅ m) as [[fs1 ma]|] eqn:E1; [| discriminate].
  destruct (inline_in_order (fun e => e) ∅ m) as [[fs2 mb]|] eqn:E2; [| discriminate].
  injection H1 as ->. injection H2 as ->.
  rewrite InlinePrimitives_in_order
    by (by rewrite (inline_in_order_keys _ _ _ _ _ E1)).
  by rewrite (inline_in_order_again _ _ _ _ _ _ E1 E2).
Qed.

End InlinerFacts.

(** ** The entry point, and the properties on concrete programs *)

Section EntryPoint.
Import IR Bytecode Runtime Compiler VM Linker Host.
Local Open Scope Z_scope.

(** C9.  The entry point answers with a value exactly when the module it
    was given, or the module made from the function it was given,
    compiles with [CompileModule] as it stands, the first function of the
    resulting table is invoked on the converted arguments, and the
    object that comes back is a tensor, which is the answer. *)
Theorem testeval_compiles_and_invokes_first (eng : Engine)
    (from_expr : Function -> Module) (fuel : nat) (mem mem' : Memory)
    (to_compile : NodeRef) (vargs : list Value) (v : Value) :
  testeval eng from_expr fuel mem to_compile vargs = Returned v mem'
  <-> exists module vm main vm_args nd vm',
        (to_compile = ModuleRef module
         \/ exists f, to_compile = FunctionRef f /\ module = from_expr f)
        /\ CompileModule eng module = OK vm
        /\ functions vm !! 0%nat = Some main
        /\ convert_args vargs = OK vm_args
        /\ Invoke fuel vm mem main vm_args = Finished (VMTensor nd, vm', mem')
        /\ v = TensorValue nd.
Proof.
  unfold testeval. split.
  - intros H.
    destruct to_compile as [f|m|]; simpl in H; try discriminate H.
    + destruct (CompileModule eng (from_expr f)) as [vm|] eqn:Hc; [| discriminate].
      rewrite read_nonneg in H by lia. change (Z.to_nat 0) with 0%nat in H.
      destruct (functions vm !! 0%nat) as [main|] eqn:Hm; [| discriminate].
      destruct (convert_args vargs) as [vm_args|] eqn:Ha; [| discriminate].
      destruct (Invoke fuel vm mem main vm_args) as [[[obj vm'] mem2]| |] eqn:Hi;
        try discriminate.
      destruct obj as [|nd]; simpl in H; [discriminate |].
      injection H as <- <-.
      exists (from_expr f), vm, main, vm_args, nd, vm'. repeat split; eauto.
    + destruct (CompileModule eng m) as [vm|] eqn:Hc; [| discriminate].
      rewrite read_nonneg in H by lia. change (Z.to_nat 0) with 0%nat in H.
      destruct (functions vm !! 0%nat) as [main|] eqn:Hm; [| discriminate].
      destruct (convert_args vargs) as [vm_args|] eqn:Ha; [| discriminate].
      destruct (Invoke fuel vm mem main vm_args) as [[[obj vm'] mem2]| |] eqn:Hi;
        try discriminate.
      destruct obj as [|nd]; simpl in H; [discriminate |].
      injection H as <- <-.
      exists m, vm, main, vm_args, nd, vm'. repeat split; eauto.
  - intros (module & vm & main & vm_args & nd & vm' & Hsrc & Hc & Hm & Ha & Hi & ->).
    assert (Hmod : module_of from_expr to_compile = OK module).
    { destruct Hsrc as [-> | (f & -> & ->)]; reflexivity. }
    rewrite Hmod, Hc. rewrite read_nonneg by lia. change (Z.to_nat 0) with 0%nat.
    by rewrite Hm, Ha, Hi.
Qed.

End EntryPoint.

Section OnExamples.
Import IR Bytecode Runtime Compiler VM Linker Host Inliner Examples.
Local Open Scope Z_scope.

(** The entry point does not inline: a let-bound primitive stops the
    compiler, although the inlined module compiles and runs. *)
Lemma testeval_does_not_inline :
  testeval engine from_expr 10 [] (FunctionRef aliased_primitive) [TensorValue 0%nat]
  = CompileFailed NoVisitor
  /\ exists m nd mem',
       InlinePrimitives (from_expr aliased_primitive) = Some m
       /\ testeval engine from_expr 10 [mkBuffer [4] float32 None] (ModuleRef m)
            [TensorValue 0%nat]
          = Returned (TensorValue nd) mem'.
Proof. split; [reflexivity |]. do 3 eexists. split; reflexivity. Qed.

(** The first scenario of the specification, through the entry point: the
    answer is the tensor passed in, and the matrix is untouched. *)
Lemma identity_on_matrix (k : nat) :
  testeval engine from_expr (2 + k) [matrix] (FunctionRef identity) [TensorValue 0%nat]
  = Returned (TensorValue 0%nat) [matrix].
Proof. reflexivity. Qed.


Lemma call_operator_after_inlining_witness :
  let m : gmap Var Expr := <[2%nat := EVar 1%nat]> (<[1%nat := prim]> ∅) in
  exists r op' args',
    collapse_chain m (EVar 2%nat) = Some r
    /\ ECall prim [EVar 0%nat] 0%nat [] = ECall op' args' 0%nat []
    /\ is_var op' = is_var (EVar 2%nat) && negb (ends_in_callee r)
    /\ (forall x, r = Resolved x -> ends_in_callee r = true -> op' = x).
Proof.
  intros m.
  apply (call_operator_after_inlining m m (EVar 2%nat) [EVar 0%nat] 0%nat []
           (ECall prim [EVar 0%nat] 0%nat [])).
  vm_compute. reflexivity.
Defined.


Lemma inlining_again_changes_nothing_witness :
  let m := [("main"%string, global_alias); ("aux"%string, apply_parameter)] in
  exists m1, InlinePrimitives m = Some m1 /\ InlinePrimitives m1 = Some m1.
Proof.
  intros m. eexists. split; [vm_compute; reflexivity |].
  apply (inlining_again_changes_nothing DeadCodeElimination m);
    [compute_done | vm_compute; reflexivity | vm_compute; reflexivity].
Defined.

Lemma If_is_back_patched_witness :
  exists c',
    Compiler.VisitExpr engine (inside_function 3) conditional = OK c'
    /\ exists c1 c3 c4 true_code false_code,
         Compiler.VisitExpr engine (inside_function 3) (EVar 0%nat) = OK c1
         /\ Compiler.VisitExpr engine (Emit c1 (If 0 0)) (EVar 1%nat) = OK c3
         /\ Compiler.VisitExpr engine c3 (EVar 2%nat) = OK c4
         /\ instructions c3 = instructions c1 ++ [If 0 0] ++ true_code
         /\ instructions c4 = instructions c3 ++ false_code
         /\ instructions c'
            = instructions c1 ++ [If 1 (SizeT.size true_code + 1)]
              ++ true_code ++ false_code
         /\ SizeT.size true_code + 1
            = SizeT.size (instructions c3) - SizeT.size (instructions c1).
Proof.
  eexists. split; [vm_compute; reflexivity |].
  apply (If_is_back_patched engine (inside_function 3));
    [vm_compute; reflexivity | reflexivity].
Defined.

(** The conditional of the specification compiles to
    [push 0; if 1 2; push 1; push 2]. *)
Lemma conditional_bytecode :
  exists c', Compiler.VisitExpr engine (inside_function 3) conditional = OK c'
             /\ instructions c' = [Push 0; If 1 2; Push 1; Push 2].
Proof. eexists. split; vm_compute; reflexivity. Qed.

Lemma arity_is_capped_witness :
  Compiler.VisitExpr engine (inside_function 9) (call_primitive 9) = Error CapacityLimit
  /\ exists c', Compiler.VisitExpr engine (inside_function 8) (call_primitive 8) = OK c'.
Proof.
  split.
  - evar (c1 : VMCompiler).
    destruct (arity_is_capped engine (inside_function 9) c1 (seq 0 9) (EVar 0%nat)
                tensor4 [] (map EVar (seq 0 9)) 0%nat [] [IntImm 4] float32
                [4] "fused_kernel"%string)
      as [Hiff _]; subst c1;
      [vm_compute; reflexivity | reflexivity | reflexivity | reflexivity
      | reflexivity |].
    apply Hiff. vm_compute. discriminate.
  - evar (c1 : VMCompiler).
    destruct (arity_is_capped engine (inside_function 8) c1 (seq 0 8) (EVar 0%nat)
                tensor4 [] (map EVar (seq 0 8)) 0%nat [] [IntImm 4] float32
                [4] "fused_kernel"%string)
      as [_ Hok]; subst c1;
      [vm_compute; reflexivity | reflexivity | reflexivity | reflexivity
      | reflexivity |].
    eexists. apply Hok. reflexivity.
Defined.

(** The aliasing scenario of the specification: the call ends up on the
    primitive literal and both bindings are removed. *)
Lemma aliased_primitive_is_inlined :
  InlinePrimitives (from_expr aliased_primitive)
  = Some [("main"%string,
           mkFunction [0%nat] (ECall prim [EVar 0%nat] 0%nat []) tensor4 [] false)].
Proof. reflexivity. Qed.

End OnExamples.

(** ** More on the interpreter: frames, calls and single steps *)

Section InterpreterSteps.
Import IR Bytecode Runtime VM Analysis.
Local Open Scope Z_scope.

Ltac bind_inv H :=
  repeat match type of H with
  | bind ?r _ = OK _ =>
      let E := fresh "E" in destruct r eqn:E; simpl in H; [| discriminate H]
  | (if ?b then _ else _) = OK _ =>
      let E := fresh "E" in destruct b eqn:E; try discriminate H
  | match ?x with _ => _ end = OK _ =>
      let E := fresh "E" in destruct x eqn:E; try discriminate H
  end.

(** X1.  [PopFrame] on a frame of [args] arguments replaces the top
    [args + 1] slots of the stack by the value on top, hands back the
    registers saved in the frame, drops the frame and returns the number
    of frames there were. *)
Theorem PopFrame_collapses_top (vm : VirtualMachine) (fs : list VMFrame.t)
    (fr : VMFrame.t) (pre tail : list VMObject) (old : VMObject) :
  frames vm = fs ++ [fr] ->
  stack vm = pre ++ old :: tail ->
  VMFrame.args fr = SizeT.size tail ->
  SizeT.size (stack vm) < SizeT.modulus ->
  PopFrame vm
  = OK (SizeT.size (frames vm),
        mkVM (functions vm) (packed_funcs vm) fs (pre ++ [default old (last tail)])
          (VMFrame.func_index fr) (VMFrame.code fr) (VMFrame.pc fr) (VMFrame.bp fr)).
Proof.
  intros Hframes Hstack Hargs Hsize.
  pose proof (size_nonneg pre) as Hp. pose proof (size_nonneg tail) as Ht.
  assert (Htotal : SizeT.size (stack vm) = SizeT.size pre + 1 + SizeT.size tail).
  { rewrite Hstack, size_app, size_cons. lia. }
  unfold PopFrame. rewrite Hframes, last_snoc, Hargs.
  rewrite (sub_small (SizeT.size (stack vm)) (SizeT.size tail)) by lia.
  rewrite !sub_small by lia.
  replace (SizeT.size (stack vm) - SizeT.size tail - 1 <? SizeT.size (stack vm))
    with true by (symmetry; apply Z.ltb_lt; lia).
  simpl.
  assert (Hread : read (stack vm) (SizeT.size (stack vm) - 1)
                  = OK (default old (last tail))).
  { rewrite Hstack at 1. rewrite Htotal.
    replace (SizeT.size pre + 1 + SizeT.size tail - 1)
      with (SizeT.size pre + SizeT.size tail) by lia.
    rewrite read_app_r by lia. rewrite read_nonneg by lia.
    unfold SizeT.size. rewrite Nat2Z.id.
    destruct tail as [|t tail] using rev_ind; [reflexivity |].
    rewrite last_snoc. simpl.
    rewrite length_app. simpl.
    replace (length tail + 1)%nat with (S (length tail)) by lia. simpl.
    by rewrite lookup_app_r, Nat.sub_diag by lia. }
  rewrite Hread. simpl. rewrite write_inside by lia. simpl.
  rewrite removelast_last. do 3 f_equal.
  replace (Z.to_nat (SizeT.size (stack vm) - SizeT.size tail - 1))
    with (length pre + 0)%nat by (rewrite Htotal; unfold SizeT.size; lia).
  replace (Z.to_nat (SizeT.size (stack vm) - SizeT.size tail))
    with (length pre + 1)%nat by (rewrite Htotal; unfold SizeT.size; lia).
  rewrite Hstack, insert_app_r, resize_app_ge by lia.
  f_equal. rewrite Nat.add_comm, Nat.add_sub. simpl. by rewrite resize_0.
Qed.

Lemma PopFrame_collapses_top_witness :
  let fr := VMFrame.mk 4 1 0 2 None in
  let vm := mkVM [] [] [fr] [VMNull; VMTensor 0%nat; VMTensor 1%nat; VMTensor 2%nat]
              0 (Some [Ret]) 0 1 in
  PopFrame vm
  = OK (1, mkVM [] [] [] ([VMNull] ++ [VMTensor 2%nat]) 0 None 4 1).
Proof.
  intros fr vm.
  apply (PopFrame_collapses_top vm [] fr [VMNull] [VMTensor 1%nat; VMTensor 2%nat]
           (VMTensor 0%nat)); reflexivity.
Defined.

(** X2.  The two checks of [PopFrame] catch every underflow: on an empty
    frame stack the first one fails, on a stack that does not hold more
    slots than the frame has arguments the second one fails, and in any
    other case [PopFrame] goes through. *)
Theorem PopFrame_checks_cover_underflow (vm : VirtualMachine) :
  SizeT.size (stack vm) < SizeT.modulus ->
  (forall fr, last (frames vm) = Some fr -> 0 <= VMFrame.args fr < SizeT.modulus) ->
  match last (frames vm) with
  | None => PopFrame vm = Error (Fatal "frames.size() != 0")
  | Some fr =>
      if SizeT.size (stack vm) <=? VMFrame.args fr
      then PopFrame vm = Error (Fatal "attempting to read stack slot")
      else exists popped, PopFrame vm = OK popped
  end.
Proof.
  intros Hsize Hargs. unfold PopFrame.
  destruct (last (frames vm)) as [fr|] eqn:Hlast; [| reflexivity].
  specialize (Hargs fr eq_refl).
  pose proof (size_nonneg (stack vm)) as Hs.
  destruct (Z.leb_spec (SizeT.size (stack vm)) (VMFrame.args fr)) as [Hle|Hgt].
  - assert (Hslot : SizeT.size (stack vm)
                    <= SizeT.sub (SizeT.sub (SizeT.size (stack vm)) (VMFrame.args fr)) 1).
    { assert (Hneg : forall x, - SizeT.modulus <= x < 0 ->
                       x mod SizeT.modulus = x + SizeT.modulus).
      { intros x Hx. rewrite <- (Z.mod_add x 1) by (unfold SizeT.modulus; lia).
        apply Z.mod_small. lia. }
      unfold SizeT.sub.
      destruct (Z.eq_dec (SizeT.size (stack vm)) (VMFrame.args fr)) as [Heq|Hne].
      - rewrite Heq, Z.sub_diag, (Z.mod_small 0) by lia.
        rewrite Hneg by (unfold SizeT.modulus; lia). lia.
      - rewrite (Hneg (SizeT.size (stack vm) - VMFrame.args fr)) by lia.
        rewrite Z.mod_small by lia. lia. }
    by replace (_ <? SizeT.size (stack vm)) with false
      by (symmetry; apply Z.ltb_ge; lia).
  - rewrite (sub_small (SizeT.size (stack vm)) (VMFrame.args fr)) by lia.
    rewrite !sub_small by lia.
    replace (_ <? SizeT.size (stack vm)) with true by (symmetry; apply Z.ltb_lt; lia).
    simpl. rewrite read_nonneg by lia.
    destruct (stack vm !! Z.to_nat (SizeT.size (stack vm) - 1)) as [top|] eqn:Htop.
    + simpl. rewrite write_inside by lia. simpl. eauto.
    + apply lookup_ge_None in Htop. unfold SizeT.size in *. lia.
Qed.

Lemma PopFrame_checks_cover_underflow_witness :
  PopFrame (mkVM [] [] [VMFrame.mk 0 0 0 3 None] [VMNull; VMNull] 0 None 0 0)
  = Error (Fatal "attempting to read stack slot").
Proof.
  apply (PopFrame_checks_cover_underflow
           (mkVM [] [] [VMFrame.mk 0 0 0 3 None] [VMNull; VMNull] 0 None 0 0)).
  - reflexivity.
  - intros fr [= <-]. simpl. split; [lia | reflexivity].
Defined.

End InterpreterSteps.

Section InterpreterCalls.
Import IR Bytecode Runtime VM Analysis.
Local Open Scope Z_scope.

Ltac bind_inv H :=
  repeat match type of H with
  | bind ?r _ = OK _ =>
      let E := fresh "E" in destruct r eqn:E; simpl in H; [| discriminate H]
  | (if ?b then _ else _) = OK _ =>
      let E := fresh "E" in destruct b eqn:E; try discriminate H
  | match ?x with _ => _ end = OK _ =>
      let E := fresh "E" in destruct x eqn:E; try discriminate H
  end.

(** [InvokeGlobal] as one equation, for stacks that fit the machine word. *)
Lemma InvokeGlobal_unfold (vm : VirtualMachine) (func : VMFunction)
    (args : list VMObject) :
  SizeT.size (stack vm) + SizeT.size args + 1 < SizeT.modulus ->
  0 <= params func < SizeT.modulus ->
  InvokeGlobal vm func args
  = if params func =? SizeT.size args
    then OK (mkVM (functions vm) (packed_funcs vm)
               (frames vm
                ++ [VMFrame.mk (SizeT.add (pc vm) 1) (bp vm) (func_index vm)
                      (params func) (code vm)])
               (stack vm ++ VMNull :: args) (func_index vm)
               (Some (instructions func)) 0 (SizeT.size (stack vm) + 1))
    else Error (Fatal "stack_start + func.params + 1 == stack.size()").
Proof.
  intros Hsize Hparams.
  pose proof (size_nonneg (stack vm)) as Hs. pose proof (size_nonneg args) as Ha.
  unfold InvokeGlobal, PushFrame, set_stack. simpl.
  assert (Hlen : SizeT.size ((stack vm ++ [VMNull]) ++ args)
                 = SizeT.size (stack vm) + 1 + SizeT.size args).
  { rewrite !size_app. reflexivity. }
  rewrite Hlen.
  destruct (Z.eqb_spec (params func) (SizeT.size args)) as [Heq|Hne].
  - rewrite Heq.
    rewrite (add_small (SizeT.size (stack vm)) (SizeT.size args)) by lia.
    rewrite (add_small (SizeT.size (stack vm) + SizeT.size args) 1) by lia.
    replace (SizeT.size (stack vm) + SizeT.size args + 1
             =? SizeT.size (stack vm) + 1 + SizeT.size args)
      with true by (symmetry; apply Z.eqb_eq; lia).
    rewrite sub_small by lia.
    rewrite <- app_assoc. simpl. do 2 f_equal. lia.
  - replace (SizeT.add (SizeT.add (SizeT.size (stack vm)) (params func)) 1
             =? SizeT.size (stack vm) + 1 + SizeT.size args) with false; [done |].
    symmetry. apply Z.eqb_neq. unfold SizeT.add.
    rewrite Zplus_mod_idemp_l.
    destruct (Z_lt_dec (SizeT.size (stack vm) + params func + 1) SizeT.modulus).
    + rewrite Z.mod_small by lia. lia.
    + replace (SizeT.size (stack vm) + params func + 1)
        with (SizeT.size (stack vm) + params func + 1 - SizeT.modulus
              + 1 * SizeT.modulus) by lia.
      rewrite Z.mod_add by (unfold SizeT.modulus; lia).
      rewrite Z.mod_small by lia. lia.
Qed.

(** X3.  [InvokeGlobal] goes through exactly when it is given as many
    arguments as the function has parameters.  It then leaves, above the
    old stack, an empty slot at [bp - 1] and the arguments from [bp] on,
    with [pc] at 0, the code of the function, and one more frame holding
    the caller's registers; the function index is not touched. *)
Theorem InvokeGlobal_layout (vm : VirtualMachine) (func : VMFunction)
    (args : list VMObject) :
  SizeT.size (stack vm) + SizeT.size args + 1 < SizeT.modulus ->
  0 <= params func < SizeT.modulus ->
  ((exists vm', InvokeGlobal vm func args = OK vm') <-> params func = SizeT.size args)
  /\ forall vm', InvokeGlobal vm func args = OK vm' ->
       stack vm' = stack vm ++ VMNull :: args
       /\ bp vm' = SizeT.size (stack vm) + 1
       /\ read (stack vm') (bp vm' - 1) = OK VMNull
       /\ (forall i a, args !! i = Some a ->
             read (stack vm') (bp vm' + Z.of_nat i) = OK a)
       /\ pc vm' = 0
       /\ code vm' = Some (instructions func)
       /\ func_index vm' = func_index vm
       /\ frames vm'
          = frames vm
            ++ [VMFrame.mk (SizeT.add (pc vm) 1) (bp vm) (func_index vm)
                  (params func) (code vm)].
Proof.
  intros Hsize Hparams. rewrite InvokeGlobal_unfold by done.
  pose proof (size_nonneg (stack vm)) as Hs.
  destruct (Z.eqb_spec (params func) (SizeT.size args)) as [Heq|Hne]; split.
  - split; [done | eauto].
  - intros vm' [= <-]. simpl. repeat split.
    + replace (SizeT.size (stack vm) + 1 - 1) with (SizeT.size (stack vm) + 0) by lia.
      by rewrite read_app_r.
    + intros i a Hi.
      replace (SizeT.size (stack vm) + 1 + Z.of_nat i)
        with (SizeT.size (stack vm) + (1 + Z.of_nat i)) by lia.
      rewrite read_app_r by lia. rewrite read_nonneg by lia.
      replace (Z.to_nat (1 + Z.of_nat i)) with (S i) by lia. simpl. by rewrite Hi.
  - split; [by intros [? [=]] | done].
  - intros vm' [=].
Qed.

Lemma InvokeGlobal_layout_witness :
  let vm := mkVM [] [] [] [VMTensor 7%nat] 0 None 3 0 in
  let func := mkVMFunction 1 [Push 0; Ret] in
  exists vm', InvokeGlobal vm func [VMTensor 0%nat] = OK vm'
              /\ stack vm' = [VMTensor 7%nat; VMNull; VMTensor 0%nat]
              /\ bp vm' = 2.
Proof.
  intros vm func. eexists. split; [reflexivity |].
  destruct (InvokeGlobal_layout vm func [VMTensor 0%nat]) as [_ H];
    [reflexivity | split; [simpl; lia | reflexivity] |].
  destruct (H _ eq_refl) as (H1 & H2 & _). split; [exact H1 | exact H2].
Defined.

(** X4.  In the frame set up by [InvokeGlobal], with [bp] one above the
    old stack: [Push s] with [s] below [2^64 - bp] pushes a copy of the
    argument number [s], and fails its bounds check when there is no such
    argument; with [s] from [2^64 - bp] on, [bp + s] wraps around, the
    check passes, and the slot [bp + s - 2^64], which lies below the
    arguments, is pushed. *)
Theorem Push_reads_argument (stack_start : Z) (vm vm1 : VirtualMachine)
    (mem : Memory) (func : VMFunction) (args : list VMObject) (s : Z) :
  SizeT.size (stack vm) + SizeT.size args + 1 < SizeT.modulus ->
  0 <= params func < SizeT.modulus ->
  InvokeGlobal vm func args = OK vm1 ->
  instructions func !! 0%nat = Some (Push s) ->
  0 <= s < SizeT.modulus ->
  let bp0 := SizeT.size (stack vm) + 1 in
  let pushed a := OK (Continue (set_pc (set_stack vm1 (stack vm1 ++ [a])) 1) mem) in
  (s < SizeT.modulus - bp0 ->
   step stack_start vm1 mem
   = match args !! Z.to_nat s with
     | Some a => pushed a
     | None => Error (Fatal "bp + instr.stack_index < stack.size()")
     end)
  /\ (SizeT.modulus - bp0 <= s ->
      exists a,
        (stack vm ++ [VMNull]) !! Z.to_nat (bp0 + s - SizeT.modulus) = Some a
        /\ step stack_start vm1 mem = pushed a).
Proof.
  intros Hsize Hparams Hinv Hcode Hs bp0 pushed.
  rewrite InvokeGlobal_unfold in Hinv by done.
  destruct (params func =? SizeT.size args); [| discriminate].
  injection Hinv as <-.
  pose proof (size_nonneg (stack vm)) as Hst. pose proof (size_nonneg args) as Ha.
  assert (Hlen : SizeT.size (stack vm ++ VMNull :: args)
                 = SizeT.size (stack vm) + 1 + SizeT.size args).
  { rewrite size_app, size_cons. lia. }
  subst bp0 pushed. split.
  - intros Hlow.
    unfold step, fetch. simpl. rewrite read_nonneg by lia.
    change (Z.to_nat 0) with 0%nat. rewrite Hcode. simpl.
    rewrite add_small by lia. rewrite Hlen.
    destruct (args !! Z.to_nat s) as [a|] eqn:Harg.
    + apply lookup_lt_Some in Harg as Hlt.
      replace (SizeT.size (stack vm) + 1 + s <? SizeT.size (stack vm) + 1 + SizeT.size args)
        with true by (symmetry; apply Z.ltb_lt; unfold SizeT.size; lia).
      simpl.
      replace (SizeT.size (stack vm) + 1 + s) with (SizeT.size (stack vm) + (1 + s)) by lia.
      rewrite read_app_r by lia. rewrite read_nonneg by lia.
      replace (Z.to_nat (1 + s)) with (S (Z.to_nat s)) by lia. simpl.
      rewrite Harg. reflexivity.
    + apply lookup_ge_None in Harg.
      by replace (SizeT.size (stack vm) + 1 + s <? SizeT.size (stack vm) + 1 + SizeT.size args)
        with false by (symmetry; apply Z.ltb_ge; unfold SizeT.size; lia).
  - intros Hhigh.
    assert (Hwrap : SizeT.add (SizeT.size (stack vm) + 1) s
                    = SizeT.size (stack vm) + 1 + s - SizeT.modulus).
    { unfold SizeT.add.
      replace (SizeT.size (stack vm) + 1 + s)
        with (SizeT.size (stack vm) + 1 + s - SizeT.modulus + 1 * SizeT.modulus) at 1
        by lia.
      rewrite Z.mod_add by lia. apply Z.mod_small. lia. }
    assert (Hin : (Z.to_nat (SizeT.size (stack vm) + 1 + s - SizeT.modulus)
                   < length (stack vm ++ [VMNull]))%nat).
    { rewrite length_app. simpl. unfold SizeT.size in *. lia. }
    destruct (lookup_lt_is_Some_2 _ _ Hin) as [a Hlook].
    exists a. split; [exact Hlook |].
    unfold step, fetch. simpl. rewrite read_nonneg by lia.
    change (Z.to_nat 0) with 0%nat. rewrite Hcode. simpl.
    rewrite Hwrap, Hlen.
    replace (SizeT.size (stack vm) + 1 + s - SizeT.modulus
             <? SizeT.size (stack vm) + 1 + SizeT.size args)
      with true by (symmetry; apply Z.ltb_lt; lia).
    simpl. rewrite read_nonneg by lia.
    replace (stack vm ++ VMNull :: args) with ((stack vm ++ [VMNull]) ++ args)
      by (by rewrite <- app_assoc).
    rewrite lookup_app_l by done. rewrite Hlook. reflexivity.
Qed.

Lemma Push_reads_argument_witness :
  let vm := mkVM [] [] [] [] 0 None 0 0 in
  let func := mkVMFunction 2 [Push (SizeT.modulus - 1); Ret] in
  exists vm1,
    InvokeGlobal vm func [VMTensor 5%nat; VMTensor 6%nat] = OK vm1
    /\ step 1 vm1 []
       = OK (Continue (set_pc (set_stack vm1 (stack vm1 ++ [VMNull])) 1) []).
Proof.
  intros vm func.
  destruct (InvokeGlobal vm func [VMTensor 5%nat; VMTensor 6%nat]) as [vm1|e] eqn:Hinv;
    [| discriminate Hinv].
  exists vm1. split; [reflexivity |].
  destruct (Push_reads_argument 1 vm vm1 [] func [VMTensor 5%nat; VMTensor 6%nat]
              (SizeT.modulus - 1)) as [_ Hwrap];
    [reflexivity | split; [simpl; lia | reflexivity] | exact Hinv | reflexivity
    | split; [discriminate | reflexivity] |].
  destruct Hwrap as (a & Ha & Hstep); [discriminate |].
  injection Ha as <-. exact Hstep.
Defined.

(** X5.  [If t f] on a boolean tensor: the condition is popped, nothing
    else on the stack and nothing in memory changes, and the program
    counter moves by [t] when the first byte is not zero and by [f] when
    it is. *)
Theorem If_consumes_condition (stack_start : Z) (vm : VirtualMachine)
    (mem : Memory) (t f : Z) (below : list VMObject) (c : NDArray)
    (buf : Buffer) (b : Z) (rest : list Z) :
  fetch vm = OK (If t f) ->
  stack vm = below ++ [VMTensor c] ->
  mem !! c = Some buf ->
  dtype buf = Bool ->
  data buf = Some (b :: rest) ->
  step stack_start vm mem
  = OK (Continue
          (set_pc (set_stack vm below)
             (SizeT.add (pc vm) (if b =? 0 then f else t)))
          mem).
Proof.
  intros Hfetch Hstack Hmem Hdt Hdata.
  unfold step. rewrite Hfetch. simpl.
  unfold back. rewrite Hstack, last_snoc. simpl.
  unfold read_condition. simpl. rewrite Hmem, Hdt. simpl. rewrite Hdata.
  simpl. rewrite removelast_last.
  by destruct (b =? 0).
Qed.

Lemma If_consumes_condition_witness :
  let vm := mkVM [] [] [] [VMTensor 1%nat; VMTensor 0%nat] 0 (Some [If 1 2; Ret]) 0 0 in
  let mem := [mkBuffer [] Bool (Some [0])] in
  step 1 vm mem = OK (Continue (set_pc (set_stack vm [VMTensor 1%nat]) 2) mem).
Proof.
  intros vm mem.
  apply (If_consumes_condition 1 vm mem 1 2 [VMTensor 1%nat] 0%nat
           (mkBuffer [] Bool (Some [0])) 0 []); reflexivity.
Defined.

(** X6.  [If] on anything but a boolean tensor stops the machine: on the
    empty object and on a tensor of another element type a check fails. *)
Theorem If_rejects_non_boolean (stack_start : Z) (vm : VirtualMachine)
    (mem : Memory) (t f : Z) (below : list VMObject) (top : VMObject) :
  fetch vm = OK (If t f) ->
  stack vm = below ++ [top] ->
  match top with
  | VMNull => True
  | VMTensor c => exists buf, mem !! c = Some buf /\ dtype buf <> Bool
  end ->
  exists what, step stack_start vm mem = Error (Fatal what).
Proof.
  intros Hfetch Hstack Htop.
  unfold step. rewrite Hfetch. simpl.
  unfold back. rewrite Hstack, last_snoc. simpl.
  destruct top as [|c]; simpl; [eauto |].
  destruct Htop as (buf & Hmem & Hdt).
  unfold read_condition. simpl. rewrite Hmem.
  rewrite bool_decide_eq_false_2 by done. simpl. eauto.
Qed.

Lemma If_rejects_non_boolean_witness :
  exists what,
    step 1 (mkVM [] [] [] [VMTensor 0%nat] 0 (Some [If 1 2; Ret]) 0 0)
      [mkBuffer [] (mkDataType kDLFloat 32 1) (Some [1])]
    = Error (Fatal what).
Proof.
  apply (If_rejects_non_boolean 1 _ _ 1 2 [] (VMTensor 0%nat));
    [reflexivity | reflexivity |].
  eexists. split; [reflexivity | discriminate].
Defined.

(** X7.  A step that goes on changes the height of the stack by the
    static effect of its instruction: one more for [Push] and
    [AllocTensor], one less for [If], [arity - 1] less for
    [InvokePacked]. *)
Theorem step_height (stack_start : Z) (vm vm' : VirtualMachine)
    (mem mem' : Memory) (instr : Instruction) :
  fetch vm = OK instr ->
  instr <> Ret ->
  SizeT.size (stack vm) < SizeT.modulus ->
  match instr with Bytecode.InvokePacked _ n => 0 <= n | _ => True end ->
  step stack_start vm mem = OK (Continue vm' mem') ->
  SizeT.size (stack vm') = SizeT.size (stack vm) + stack_effect instr.
Proof.
  intros Hfetch Hret Hsize Hn Hstep.
  pose proof (size_nonneg (stack vm)) as Hs.
  unfold step in Hstep. rewrite Hfetch in Hstep. simpl in Hstep.
  destruct instr as [s| |i n|sh dt|t f|i]; try congruence; simpl.
  - bind_inv Hstep. injection Hstep as <- <-. simpl. rewrite size_app. reflexivity.
  - destruct (read (packed_funcs vm) i) as [func|]; simpl in Hstep; [| discriminate].
    destruct (InvokePacked func n (stack vm) mem) as [[st m2]|] eqn:Hip;
      simpl in Hstep; [| discriminate].
    destruct (Z.eqb_spec (SizeT.add (SizeT.sub (SizeT.size (stack vm)) n) 1)
                (SizeT.size st)) as [Heq|]; [| discriminate].
    injection Hstep as <- <-. simpl. rewrite <- Heq.
    unfold InvokePacked in Hip.
    destruct (Z.leb_spec n (SizeT.size (stack vm))) as [Hle|]; [| discriminate].
    simpl in Hip. rewrite (sub_small _ n) in Hip by lia.
    bind_inv Hip.
    match goal with
    | H : write _ _ _ = OK _ |- _ =>
        unfold write in H;
        destruct (_ && _) eqn:Hw in H; [| discriminate H];
        apply andb_true_iff in Hw as [_ Hw]; apply Z.ltb_lt in Hw
    end.
    rewrite sub_small, add_small by lia. lia.
  - injection Hstep as <- <-. simpl. rewrite size_app. reflexivity.
  - bind_inv Hstep; injection Hstep as <- <-; simpl;
      unfold back in E; destruct (stack vm) as [|x l] using rev_ind;
      try discriminate E; rewrite removelast_last, size_app;
      unfold SizeT.size; simpl; lia.
Qed.

Lemma step_height_witness :
  let vm := mkVM [] [] [] [VMTensor 0%nat] 0 (Some [Push 0; Ret]) 0 0 in
  exists vm', step 1 vm [] = OK (Continue vm' [])
              /\ SizeT.size (stack vm') = SizeT.size (stack vm) + 1.
Proof.
  intros vm. eexists. split; [reflexivity |].
  apply (step_height 1 vm _ [] [] (Push 0));
    [reflexivity | discriminate | reflexivity | exact I | reflexivity].
Defined.

(** X8.  Only a kernel can change a tensor that exists: a step on any
    instruction other than [InvokePacked] leaves the memory as it was, or,
    for [AllocTensor], adds one buffer not yet written after it. *)
Theorem step_preserves_buffers (stack_start : Z) (vm : VirtualMachine)
    (mem : Memory) (instr : Instruction) (s : Step) :
  fetch vm = OK instr ->
  is_InvokePacked instr = false ->
  step stack_start vm mem = OK s ->
  let mem' := match s with Continue _ m => m | Return _ m => m end in
  match instr with
  | AllocTensor sh dt => mem' = mem ++ [mkBuffer sh dt None]
  | _ => mem' = mem
  end.
Proof.
  intros Hfetch Hk Hstep. unfold step in Hstep. rewrite Hfetch in Hstep.
  simpl in Hstep.
  destruct instr; try discriminate Hk; try discriminate Hstep; bind_inv Hstep;
    injection Hstep as <-; reflexivity.
Qed.

Lemma step_preserves_buffers_witness :
  let vm := mkVM [] [] [] [] 0 (Some [AllocTensor [2] (mkDataType kDLFloat 32 1)]) 0 0 in
  exists s, step 1 vm [] = OK s
            /\ match s with Continue _ m => m | Return _ m => m end
               = [] ++ [mkBuffer [2] (mkDataType kDLFloat 32 1) None].
Proof.
  intros vm. eexists. split; [reflexivity |].
  apply (step_preserves_buffers 1 vm [] (AllocTensor [2] (mkDataType kDLFloat 32 1)));
    reflexivity.
Defined.

End InterpreterCalls.

Section InterpreterRuns.
Import IR Bytecode Runtime VM Analysis.
Local Open Scope Z_scope.

(** The registers [PopFrame] hands back are those of the frame on top. *)
Lemma PopFrame_registers (vm vm' : VirtualMachine) (n : Z) (fr : VMFrame.t) :
  PopFrame vm = OK (n, vm') ->
  last (frames vm) = Some fr ->
  functions vm' = functions vm /\ packed_funcs vm' = packed_funcs vm
  /\ func_index vm' = VMFrame.func_index fr /\ code vm' = VMFrame.code fr
  /\ pc vm' = VMFrame.pc fr /\ bp vm' = VMFrame.bp fr.
Proof.
  unfold PopFrame. intros H Hlast. rewrite Hlast in H.
  destruct (negb _); [discriminate |].
  destruct (read _ _) as [top|]; simpl in H; [| discriminate].
  destruct (write _ _ _) as [st|]; simpl in H; [| discriminate].
  injection H as <- <-. simpl. repeat split.
Qed.

(** X9.  A function whose code is [push s; ret], called on [args]: the
    call returns the argument number [s].  It leaves the empty slot and
    the result above the old stack, the memory untouched, the frame
    stack, [bp], the function index and the code pointer as before the
    call, and [pc] one past its value before the call. *)
Theorem Invoke_returns_parameter (vm : VirtualMachine) (mem : Memory)
    (args : list VMObject) (s : Z) (a : VMObject) (k : nat) :
  SizeT.size (stack vm) + SizeT.size args + 2 < SizeT.modulus ->
  0 <= s ->
  args !! Z.to_nat s = Some a ->
  exists vm',
    Invoke (2 + k) vm mem (mkVMFunction (SizeT.size args) [Push s; Ret]) args
    = Finished (a, vm', mem)
    /\ stack vm' = stack vm ++ [VMNull; a]
    /\ frames vm' = frames vm
    /\ bp vm' = bp vm
    /\ func_index vm' = func_index vm
    /\ code vm' = code vm
    /\ pc vm' = SizeT.add (pc vm) 1.
Proof.
  intros Hsize Hs Harg.
  pose proof (size_nonneg (stack vm)) as Hst. pose proof (size_nonneg args) as Ha.
  apply lookup_lt_Some in Harg as Hlt.
  unfold Invoke. rewrite InvokeGlobal_unfold by (simpl; lia).
  simpl. rewrite Z.eqb_refl.
  set (fr := VMFrame.mk _ _ _ _ _).
  unfold Run. simpl. unfold step at 1. unfold fetch. simpl.
  assert (Hlen : SizeT.size (stack vm ++ VMNull :: args)
                 = SizeT.size (stack vm) + 1 + SizeT.size args).
  { rewrite size_app, size_cons. lia. }
  rewrite add_small by (unfold SizeT.size in *; lia).
  rewrite Hlen.
  replace (SizeT.size (stack vm) + 1 + s <? SizeT.size (stack vm) + 1 + SizeT.size args)
    with true by (symmetry; apply Z.ltb_lt; unfold SizeT.size; lia).
  simpl.
  replace (SizeT.size (stack vm) + 1 + s) with (SizeT.size (stack vm) + (1 + s)) by lia.
  rewrite read_app_r by lia. rewrite read_nonneg by lia.
  replace (Z.to_nat (1 + s)) with (S (Z.to_nat s)) by lia. simpl.
  rewrite Harg. simpl.
  set (vm2 := set_pc _ _).
  destruct (PopFrame_keeps_return_slot vm2 (frames vm) fr (stack vm) args VMNull a)
    as (vm3 & Hpop & Hstack3 & Hframes3).
  { reflexivity. }
  { subst vm2. simpl. by rewrite <- app_assoc. }
  { reflexivity. }
  { subst vm2. simpl. rewrite size_app, Hlen. unfold SizeT.size at 3. simpl. lia. }
  destruct (PopFrame_registers vm2 vm3 _ fr Hpop) as (_ & _ & Hfi & Hcode & Hpc & Hbp).
  { subst vm2. simpl. apply last_snoc. }
  unfold step. unfold fetch. change (code vm2) with (Some [Push s; Ret]).
  change (pc vm2) with (SizeT.add 0 1). simpl. rewrite Hpop. simpl.
  change (frames vm2) with (frames vm ++ [fr]). rewrite Z.eqb_refl.
  unfold back. rewrite Hstack3, app_assoc, last_snoc.
  exists vm3. repeat split; auto.
Qed.

Lemma Invoke_returns_parameter_witness :
  exists vm',
    Invoke 2 (mkVM [] [] [] [VMTensor 9%nat] 0 None 5 0) []
      (mkVMFunction 2 [Push 1; Ret]) [VMTensor 3%nat; VMTensor 4%nat]
    = Finished (VMTensor 4%nat, vm', [])
    /\ stack vm' = [VMTensor 9%nat] ++ [VMNull; VMTensor 4%nat]
    /\ frames vm' = []
    /\ bp vm' = 0
    /\ func_index vm' = 0
    /\ code vm' = None
    /\ pc vm' = SizeT.add 5 1.
Proof.
  apply (Invoke_returns_parameter (mkVM [] [] [] [VMTensor 9%nat] 0 None 5 0) []
           [VMTensor 3%nat; VMTensor 4%nat] 1 (VMTensor 4%nat) 0);
    [reflexivity | lia | reflexivity].
Defined.

(** More fuel does not change a run that has ended. *)
Lemma dispatch_more_fuel (fuel extra : nat) (stack_start : Z)
    (vm : VirtualMachine) (mem : Memory) :
  dispatch fuel stack_start vm mem <> OutOfFuel ->
  dispatch (fuel + extra) stack_start vm mem = dispatch fuel stack_start vm mem.
Proof.
  revert vm mem. induction fuel as [|fuel IH]; intros vm mem H; [done |].
  simpl in *. destruct (step stack_start vm mem) as [[vm' mem'|vm' mem']|]; auto.
Qed.

End InterpreterRuns.

(** ** More on the compiler: what the emitted code looks like *)

Section CompilerShape.
Import IR Bytecode Runtime Compiler Analysis.
Local Open Scope Z_scope.

Ltac bind_inv H :=
  repeat match type of H with
  | bind ?r _ = OK _ =>
      let E := fresh "E" in destruct r eqn:E; simpl in H; [| discriminate H]
  | (if ?b then _ else _) = OK _ =>
      let E := fresh "E" in destruct b eqn:E; try discriminate H
  | match ?x with _ => _ end = OK _ =>
      let E := fresh "E" in destruct x eqn:E; try discriminate H
  end.

Lemma kernel_calls_app (a b : list Instruction) :
  kernel_calls (a ++ b) = kernel_calls a ++ kernel_calls b.
Proof.
  induction a as [|i a IH]; [reflexivity |].
  destruct i; simpl; by rewrite ?IH.
Qed.

Lemma net_effect_app (a b : list Instruction) :
  net_effect (a ++ b) = net_effect a + net_effect b.
Proof.
  unfold net_effect. induction a as [|i a IH]; simpl; [reflexivity |].
  rewrite IH. lia.
Qed.

Lemma well_indexed_nil (base : Z) : well_indexed base [] [].
Proof. repeat split. constructor. Qed.

Lemma well_indexed_app (base : Z) (c1 c2 : list Instruction)
    (l1 l2 : list LoweredFunc) :
  well_indexed base c1 l1 ->
  well_indexed (base + SizeT.size l1) c2 l2 ->
  well_indexed base (c1 ++ c2) (l1 ++ l2).
Proof.
  intros (Hb1 & Hk1 & Ha1) (Hb2 & Hk2 & Ha2). repeat split.
  - by rewrite forallb_app, Hb1, Hb2.
  - rewrite kernel_calls_app, map_app, Hk1, Hk2, size_app.
    symmetry. apply seqZ_app; apply size_nonneg.
  - rewrite kernel_calls_app. by apply Forall_app.
Qed.

Lemma well_indexed_plain (base : Z) (instr : Instruction) :
  is_body_instruction instr = true ->
  is_InvokePacked instr = false ->
  well_indexed base [instr] [].
Proof.
  intros Hb Hk. repeat split.
  - simpl. by rewrite Hb.
  - destruct instr; try discriminate; reflexivity.
  - destruct instr; try discriminate; constructor.
Qed.

Lemma patch_if_at (pre post : list Instruction) (a b t f : Z) :
  patch_if (pre ++ If a b :: post) (SizeT.size pre) t f = pre ++ If t f :: post.
Proof.
  unfold patch_if.
  replace (Z.to_nat (SizeT.size pre)) with (length pre + 0)%nat
    by (unfold SizeT.size; lia).
  by rewrite !alter_app_r.
Qed.

Lemma bind_params_lowered (ps : list Var) (c : VMCompiler) :
  lowered_funcs (fold_left bind_param ps c) = lowered_funcs c.
Proof. revert c. induction ps as [|p ps IH]; intros c; simpl; [done | by rewrite IH]. Qed.

(** What a visit adds: instructions after the old ones, kernels after the
    old ones, well indexed. *)
Lemma VisitExpr_emits (eng : Engine) (e : Expr) :
  forall c c', VisitExpr eng c e = OK c' ->
  exists code lf,
    instructions c' = instructions c ++ code
    /\ lowered_funcs c' = lowered_funcs c ++ lf
    /\ well_indexed (SizeT.size (lowered_funcs c)) code lf.
Proof.
  induction e as [v|g|v value body IHv IHb|cond t f IHc IHt IHf
                 |ps body rt tps prim IHb|op args attrs targs IHop IHargs]
    using Expr_induction; intros c c' H.
  - simpl in H. bind_inv H. injection H as <-. simpl.
    exists [Push z], []. rewrite app_nil_r. repeat split; constructor.
  - discriminate H.
  - discriminate H.
  - simpl in H. bind_inv H. injection H as <-.
    rename a into c1, a0 into c3, a1 into c4.
    destruct (IHc _ _ E) as (code1 & lf1 & Hi1 & Hl1 & Hw1).
    destruct (IHt _ _ E0) as (code2 & lf2 & Hi2 & Hl2 & Hw2).
    destruct (IHf _ _ E1) as (code3 & lf3 & Hi3 & Hl3 & Hw3).
    simpl in Hi2, Hl2, Hw2.
    exists (code1 ++ [If 1 (SizeT.sub (SizeT.size (instructions c3))
                            (SizeT.size (instructions c1)))] ++ code2 ++ code3),
      (lf1 ++ lf2 ++ lf3).
    split; [| split].
    + simpl. rewrite Hi3, Hi2, <- !app_assoc. simpl.
      rewrite patch_if_at. rewrite Hi1, <- app_assoc. reflexivity.
    + simpl. by rewrite Hl3, Hl2, Hl1, <- !app_assoc.
    + apply well_indexed_app; [done |].
      change ([If 1 (SizeT.sub (SizeT.size (instructions c3))
                       (SizeT.size (instructions c1)))] ++ code2 ++ code3)
        with (([If 1 (SizeT.sub (SizeT.size (instructions c3))
                        (SizeT.size (instructions c1)))] ++ code2) ++ code3)
        || rewrite app_assoc.
      replace (lf2 ++ lf3) with (([] ++ lf2) ++ lf3) by reflexivity.
      apply well_indexed_app.
      * apply well_indexed_app; [by apply well_indexed_plain |].
        rewrite Z.add_0_r || (change (SizeT.size []) with 0; rewrite Z.add_0_r).
        by rewrite <- size_app, <- Hl1.
      * simpl. rewrite <- !size_app, <- Hl1, <- Hl2. done.
  - simpl in H. destruct (seen_func c); [discriminate H |].
    destruct (IHb _ _ H) as (code & lf & Hi & Hl & Hw).
    rewrite bind_params_instructions in Hi. rewrite bind_params_lowered in Hl, Hw.
    simpl in *. eauto.
  - rewrite compile_call_unfold in H. destruct op; try discriminate H.
    bind_inv H. rename a into c1.
    assert (Hargs : exists code lf,
               instructions c1 = instructions c ++ code
               /\ lowered_funcs c1 = lowered_funcs c ++ lf
               /\ well_indexed (SizeT.size (lowered_funcs c)) code lf).
    { clear H IHop. revert c E.
      induction IHargs as [|arg args Harg _ IH]; intros c E.
      - injection E as <-. exists [], []. rewrite !app_nil_r.
        repeat split. constructor.
      - simpl in E. bind_inv E.
        destruct (Harg _ _ E0) as (code1 & lf1 & Hi1 & Hl1 & Hw1).
        destruct (IH _ E) as (code2 & lf2 & Hi2 & Hl2 & Hw2).
        exists (code1 ++ code2), (lf1 ++ lf2). split; [| split].
        + by rewrite Hi2, Hi1, app_assoc.
        + by rewrite Hl2, Hl1, app_assoc.
        + apply well_indexed_app; [done |]. by rewrite <- size_app, <- Hl1. }
    destruct Hargs as (code1 & lf1 & Hi1 & Hl1 & Hw1).
    unfold emit_call in H. bind_inv H. injection H as <-. simpl.
    do 2 eexists. split; [| split].
    + rewrite Hi1, <- !app_assoc. reflexivity.
    + rewrite Hl1, <- app_assoc. reflexivity.
    + apply well_indexed_app; [done |]. repeat split.
      * simpl. rewrite Hl1, size_app. reflexivity.
      * constructor; [| constructor]. simpl.
        match goal with Hlt : (_ <? 10) = true |- _ => apply Z.ltb_lt in Hlt end.
        split; [| done]. unfold SizeT.add.
        apply Z.mod_pos_bound. reflexivity.
Qed.

(** X10.  Code made by [CompileFunc]: as many parameters as the function
    has, one [Ret], at the very end, and no [Invoke] anywhere; so a run of
    compiled code never meets the opcode that stops the machine. *)
Theorem CompileFunc_ends_with_Ret (eng : Engine) (func : Function)
    (lf : list LoweredFunc) (vf : VMFunction) :
  CompileFunc eng func = OK (lf, vf) ->
  Bytecode.params vf = SizeT.size (IR.params func)
  /\ exists body,
       Bytecode.instructions vf = body ++ [Ret]
       /\ forallb is_body_instruction body = true.
Proof.
  unfold CompileFunc. intros H. bind_inv H. injection H as <- <-. simpl.
  split; [reflexivity |].
  destruct (VisitExpr_emits _ _ _ _ E) as (code & lf & Hi & _ & Hb & _).
  exists code. simpl in Hi. by rewrite Hi.
Qed.

Lemma CompileFunc_ends_with_Ret_witness :
  exists body,
    [Push 0; If 1 2; Push 1; Push 2; Ret] = body ++ [Ret]
    /\ forallb is_body_instruction body = true.
Proof.
  apply (CompileFunc_ends_with_Ret Examples.engine choose []
           (mkVMFunction 3 [Push 0; If 1 2; Push 1; Push 2; Ret])).
  vm_compute. reflexivity.
Defined.

(** X11.  In the code of one function the [InvokePacked] instructions
    carry the indices 0, 1, 2, ... in the order they were emitted, one per
    kernel handed back with the code, and an arity from 0 to 9. *)
Theorem CompileFunc_kernel_indices (eng : Engine) (func : Function)
    (lf : list LoweredFunc) (vf : VMFunction) :
  CompileFunc eng func = OK (lf, vf) ->
  map fst (kernel_calls (Bytecode.instructions vf)) = seqZ 0 (SizeT.size lf)
  /\ Forall (fun call => 0 <= snd call < 10) (kernel_calls (Bytecode.instructions vf)).
Proof.
  unfold CompileFunc. intros H. bind_inv H. injection H as <- <-. simpl.
  destruct (VisitExpr_emits _ _ _ _ E) as (code & lf & Hi & Hl & _ & Hk & Ha).
  simpl in Hi, Hl, Hk.
  assert (Hk' : kernel_calls (code ++ [Ret]) = kernel_calls code)
    by (rewrite kernel_calls_app; apply app_nil_r).
  rewrite Hi, Hl, Hk'. by split.
Qed.

Lemma CompileFunc_kernel_indices_witness :
  let inner := Examples.call_primitive 1 in
  let outer := ECall (Examples.primitive_of [0%nat]) [inner] 0%nat [] in
  let func := mkFunction [0%nat] outer Examples.tensor4 [] false in
  exists lf vf,
    CompileFunc Examples.engine func = OK (lf, vf)
    /\ map fst (kernel_calls (Bytecode.instructions vf)) = seqZ 0 (SizeT.size lf)
    /\ kernel_calls (Bytecode.instructions vf) = [(0, 2); (1, 2)].
Proof.
  intros inner outer func. do 2 eexists. split; [vm_compute; reflexivity |].
  split; [| reflexivity].
  eapply (CompileFunc_kernel_indices Examples.engine func). vm_compute. reflexivity.
Defined.

End CompilerShape.

Section CompilerPrograms.
Import IR Bytecode Runtime Compiler Analysis.
Local Open Scope Z_scope.

Ltac bind_inv H :=
  repeat match type of H with
  | bind ?r _ = OK _ =>
      let E := fresh "E" in destruct r eqn:E; simpl in H; [| discriminate H]
  | (if ?b then _ else _) = OK _ =>
      let E := fresh "E" in destruct b eqn:E; try discriminate H
  | match ?x with _ => _ end = OK _ =>
      let E := fresh "E" in destruct x eqn:E; try discriminate H
  end.

Lemma compile_functions_each (eng : Engine) (fs : Module) :
  forall low vfs r,
  Linker.compile_functions eng fs low vfs = OK r ->
  exists compiled,
    Forall2 (fun gf cf => CompileFunc eng (snd gf) = OK cf) fs compiled
    /\ r = (low ++ concat (map fst compiled), vfs ++ map snd compiled).
Proof.
  induction fs as [|[g f] fs IH]; intros low vfs r H; simpl in H.
  - injection H as <-. exists []. split; [constructor |]. by rewrite !app_nil_r.
  - destruct (CompileFunc eng f) as [cf|] eqn:Hc; simpl in H; [| discriminate].
    destruct (IH _ _ _ H) as (compiled & Hall & ->).
    exists (cf :: compiled). split; [by constructor |]. simpl.
    by rewrite <- !app_assoc.
Qed.

(** X12.  [CompileModule] compiles every function on its own, in module
    order, and keeps the codes in that order; the kernel table holds the
    kernels of all the functions one after the other, as many as were
    lowered, from one call of the backend.  The machine starts with empty
    stacks and a null code pointer. *)
Theorem CompileModule_tables (eng : Engine) (m : Module) (vm : VM.VirtualMachine) :
  Linker.CompileModule eng m = OK vm ->
  exists compiled,
    Forall2 (fun gf cf => CompileFunc eng (snd gf) = OK cf) m compiled
    /\ VM.functions vm = map snd compiled
    /\ length (VM.packed_funcs vm) = length (concat (map fst compiled))
    /\ (forall build mod_,
          backend_build eng = Some build ->
          build (concat (map fst compiled)) = Some mod_ ->
          VM.packed_funcs vm = map mod_ (concat (map fst compiled)))
    /\ VM.stack vm = [] /\ VM.frames vm = [] /\ VM.code vm = None.
Proof.
  unfold Linker.CompileModule. intros H.
  destruct (Linker.compile_functions eng m [] _) as [r|] eqn:Hc; simpl in H;
    [| discriminate].
  destruct (compile_functions_each _ _ _ _ _ Hc) as (compiled & Hall & ->).
  simpl in H. exists compiled. split; [done |].
  unfold Linker.PopulatePackedFuncMap in H.
  destruct (0 <? SizeT.size (concat (map fst compiled))) eqn:Hne.
  - destruct (backend_build eng) as [build|]; [| discriminate].
    destruct (build _) as [mod_|] eqn:Hb; [| discriminate].
    injection H as <-. simpl. repeat split.
    + by rewrite length_map.
    + intros build' mod' [= <-] Hb'. rewrite Hb in Hb'. by injection Hb' as <-.
  - injection H as <-. simpl.
    apply Z.ltb_ge in Hne. unfold SizeT.size in Hne.
    destruct (concat (map fst compiled)); [| simpl in Hne; lia].
    repeat split. 
Qed.

Lemma CompileModule_tables_witness :
  let func := mkFunction [0%nat] (Examples.call_primitive 1) Examples.tensor4 [] false in
  exists vm,
    Linker.CompileModule Examples.engine [("f"%string, func); ("g"%string, func)] = OK vm
    /\ length (VM.packed_funcs vm) = 2%nat
    /\ map (fun vf => kernel_calls (Bytecode.instructions vf)) (VM.functions vm)
       = [[(0, 2)]; [(0, 2)]].
Proof.
  intros func. eexists. split; [vm_compute; reflexivity |].
  edestruct (CompileModule_tables Examples.engine
               [("f"%string, func); ("g"%string, func)])
    as (compiled & _ & _ & _ & _); [vm_compute; reflexivity |].
  split; reflexivity.
Defined.

Lemma bind_params_keeps (ps : list Var) :
  forall c x slot,
  var_map c !! x = Some slot ->
  var_map (fold_left bind_param ps c) !! x = Some slot.
Proof.
  induction ps as [|p ps IH]; intros c x slot H; [done |].
  simpl. apply IH. unfold bind_param. simpl.
  destruct (var_map c !! p) eqn:Hp; [done |].
  destruct (decide (p = x)) as [->|Hne]; [congruence |].
  by rewrite lookup_insert_ne.
Qed.

Lemma bind_params_absent (ps : list Var) :
  forall c x,
  x ∉ ps -> var_map c !! x = None ->
  var_map (fold_left bind_param ps c) !! x = None.
Proof.
  induction ps as [|p ps IH]; intros c x Hx H; [done |].
  apply not_elem_of_cons in Hx as [Hne Hx].
  simpl. apply IH; [done |]. unfold bind_param. simpl.
  destruct (var_map c !! p); [done |]. by rewrite lookup_insert_ne.
Qed.

Lemma bind_params_position (ps : list Var) :
  forall c i x,
  ps !! i = Some x ->
  x ∉ take i ps ->
  var_map c !! x = None ->
  0 <= stack_index c ->
  stack_index c + SizeT.size ps < SizeT.modulus ->
  var_map (fold_left bind_param ps c) !! x = Some (stack_index c + Z.of_nat i).
Proof.
  induction ps as [|p ps IH]; intros c i x Hi Hfirst Hnone Hs Hsize; [done |].
  rewrite size_cons in Hsize. pose proof (size_nonneg ps) as Hp.
  destruct i as [|i]; simpl in *.
  - injection Hi as ->. apply bind_params_keeps. unfold bind_param. simpl.
    rewrite Hnone, lookup_insert_eq. f_equal. lia.
  - apply not_elem_of_cons in Hfirst as [Hne Hfirst].
    rewrite (IH (bind_param c p) i x); try done.
    + unfold bind_param. simpl. rewrite add_small by lia. f_equal. lia.
    + unfold bind_param. simpl.
      destruct (var_map c !! p); [done |]. by rewrite lookup_insert_ne.
    + unfold bind_param. simpl. rewrite add_small by lia. lia.
    + unfold bind_param. simpl. rewrite add_small by lia. lia.
Qed.

(** X13.  A function whose body is one of its parameters compiles to
    [push i; ret], [i] being the position at which the parameter first
    occurs in the parameter list, and lowers no kernel. *)
Theorem CompileFunc_parameter (eng : Engine) (ps : list Var) (i : nat) (x : Var)
    (rt : RelayType) (tps : list nat) (prim : bool) :
  ps !! i = Some x ->
  x ∉ take i ps ->
  SizeT.size ps < SizeT.modulus ->
  CompileFunc eng (mkFunction ps (EVar x) rt tps prim)
  = OK ([], mkVMFunction (SizeT.size ps) [Push (Z.of_nat i); Ret]).
Proof.
  intros Hi Hfirst Hsize. unfold CompileFunc, as_expr. simpl.
  rewrite (bind_params_position ps (enter_function new_compiler) i x); try done.
  simpl. by rewrite bind_params_instructions, bind_params_lowered.
Qed.

Lemma CompileFunc_parameter_witness :
  CompileFunc Examples.engine
    (mkFunction [4%nat; 7%nat; 4%nat] (EVar 7%nat) Examples.tensor4 [] false)
  = OK ([], mkVMFunction 3 [Push 1; Ret]).
Proof.
  apply (CompileFunc_parameter Examples.engine [4%nat; 7%nat; 4%nat] 1 7%nat);
    [reflexivity | | reflexivity].
  simpl. apply not_elem_of_cons. split; [lia | apply not_elem_of_nil].
Defined.

(** X14.  A function whose body is a variable that is not one of its
    parameters is rejected: the lookup in [var_map] fails. *)
Theorem CompileFunc_unbound_variable (eng : Engine) (ps : list Var) (x : Var)
    (rt : RelayType) (tps : list nat) (prim : bool) :
  x ∉ ps ->
  CompileFunc eng (mkFunction ps (EVar x) rt tps prim) = Error UnboundVariable.
Proof.
  intros Hx. unfold CompileFunc, as_expr. simpl.
  by rewrite (bind_params_absent ps (enter_function new_compiler) x).
Qed.

Lemma CompileFunc_unbound_variable_witness :
  CompileFunc Examples.engine
    (mkFunction [0%nat; 1%nat] (EVar 2%nat) Examples.tensor4 [] false)
  = Error UnboundVariable.
Proof.
  apply (CompileFunc_unbound_variable Examples.engine [0%nat; 1%nat] 2%nat).
  apply not_elem_of_cons. split; [lia |].
  apply not_elem_of_cons. split; [lia | apply not_elem_of_nil].
Defined.

Lemma straight_line_args (args : list Expr) :
  (fix all (l : list Expr) : bool :=
     match l with
     | [] => true
     | a :: rest => straight_line a && all rest
     end) args = true
  -> Forall (fun a => straight_line a = true) args.
Proof.
  induction args as [|a args IH]; intros H; constructor;
    apply andb_true_iff in H as [Ha Hr]; auto.
Qed.

Lemma VisitExpr_net_effect (eng : Engine) (e : Expr) :
  forall c c', VisitExpr eng c e = OK c' ->
  straight_line e = true ->
  exists code, instructions c' = instructions c ++ code /\ net_effect code = 1.
Proof.
  induction e as [v|g|v value body IHv IHb|cond t f IHc IHt IHf
                 |ps body rt tps prim IHb|op args attrs targs IHop IHargs]
    using Expr_induction; intros c c' H Hsl; try discriminate Hsl.
  - simpl in H. bind_inv H. injection H as <-. simpl. eauto.
  - simpl in H. destruct (seen_func c); [discriminate H |].
    destruct (IHb _ _ H Hsl) as (code & Hi & Hn).
    rewrite bind_params_instructions in Hi. eauto.
  - rewrite compile_call_unfold in H.
    destruct op as [| | | |ps body0 rt0 tps0 prim0|]; try discriminate H.
    simpl in Hsl. apply andb_true_iff in Hsl as [Hsl Hall].
    apply andb_true_iff in Hsl as [Hlen Hsmall].
    apply Z.eqb_eq in Hlen. apply Z.ltb_lt in Hsmall.
    apply straight_line_args in Hall.
    bind_inv H. rename a into c1.
    assert (Hargs : exists code,
               instructions c1 = instructions c ++ code
               /\ net_effect code = SizeT.size args).
    { clear H IHop Hlen. revert c E.
      induction IHargs as [|arg args Harg _ IH]; intros c E.
      - injection E as <-. exists []. by rewrite app_nil_r.
      - simpl in E. bind_inv E. apply Forall_cons in Hall as [Ha Hall].
        destruct (Harg _ _ E0 Ha) as (code1 & Hi1 & Hn1).
        destruct (IH Hall _ E) as (code2 & Hi2 & Hn2).
        exists (code1 ++ code2). split; [by rewrite Hi2, Hi1, app_assoc |].
        rewrite net_effect_app, Hn1, Hn2, size_cons. lia. }
    destruct Hargs as (code1 & Hi1 & Hn1).
    unfold emit_call in H. bind_inv H. injection H as <-. simpl.
    eexists. split; [rewrite Hi1, <- !app_assoc; reflexivity |].
    pose proof (size_nonneg ps).
    rewrite net_effect_app, Hn1. unfold net_effect. simpl.
    rewrite add_small by lia. lia.
Qed.

(** X15.  For a body made of variables and of calls that pass as many
    arguments as the primitive has parameters, the static stack effects of
    the compiled code add up to one: the code leaves one value more than
    it found. *)
Theorem CompileFunc_leaves_one_value (eng : Engine) (func : Function)
    (lf : list LoweredFunc) (vf : VMFunction) :
  CompileFunc eng func = OK (lf, vf) ->
  straight_line (body func) = true ->
  net_effect (Bytecode.instructions vf) = 1.
Proof.
  unfold CompileFunc. intros H Hsl. bind_inv H. injection H as <- <-. simpl.
  destruct (VisitExpr_net_effect eng (as_expr func) _ _ E Hsl) as (code & Hi & Hn).
  simpl in Hi. rewrite Hi, net_effect_app, Hn. reflexivity.
Qed.

Lemma CompileFunc_leaves_one_value_witness :
  let func := mkFunction [0%nat; 1%nat] (Examples.call_primitive 2) Examples.tensor4
                [] false in
  exists lf vf, CompileFunc Examples.engine func = OK (lf, vf)
                /\ net_effect (Bytecode.instructions vf) = 1.
Proof.
  intros func. do 2 eexists. split; [vm_compute; reflexivity |].
  eapply (CompileFunc_leaves_one_value Examples.engine func);
    [vm_compute; reflexivity | reflexivity].
Defined.

End CompilerPrograms.

Section ConditionalRun.
Import IR Bytecode Runtime Compiler VM Analysis.
Local Open Scope Z_scope.

Lemma dispatch_step (fuel : nat) (stack_start : Z) (vm : VirtualMachine)
    (mem : Memory) :
  dispatch (S fuel) stack_start vm mem
  = match step stack_start vm mem with
    | Error f => Failed f
    | OK (Return vm' mem') => Finished (vm', mem')
    | OK (Continue vm' mem') => dispatch fuel stack_start vm' mem'
    end.
Proof. reflexivity. Qed.

(** X16.  The function [fn (c, x, y) { if c then x else y }] compiles to
    [push 0; if 1 2; push 1; push 2; ret], in which the true branch runs
    into the false branch: called on a boolean tensor and two tensors it
    returns the third argument, whatever the condition holds. *)
Theorem choose_returns_third_argument (eng : Engine) (g : GlobalVar)
    (mem : Memory) (c x y : NDArray) (buf : Buffer) (b : Z) (rest : list Z)
    (k : nat) :
  mem !! c = Some buf ->
  dtype buf = Bool ->
  data buf = Some (b :: rest) ->
  let code := mkVMFunction 3 [Push 0; If 1 2; Push 1; Push 2; Ret] in
  exists vm,
    Linker.CompileModule eng [(g, choose)] = OK vm
    /\ functions vm = [code]
    /\ exists vm',
        Invoke (5 + k) vm mem code [VMTensor c; VMTensor x; VMTensor y]
        = Finished (VMTensor y, vm', mem).
Proof.
  intros Hmem Hdt Hdata code.
  exists (mkVM [code] [] [] [] 0 None 0 0).
  assert (Hcond : read_condition mem (VMTensor c) = OK (negb (b =? 0))).
  { unfold read_condition. simpl. rewrite Hmem, Hdt. simpl. by rewrite Hdata. }
  split; [reflexivity |]. split; [reflexivity |].
  unfold Invoke.
  replace (InvokeGlobal _ code _)
    with (OK (E:=Fault) (mkVM [code] [] [VMFrame.mk 1 0 0 3 None]
                [VMNull; VMTensor c; VMTensor x; VMTensor y] 0
                (Some (Bytecode.instructions code)) 0 1)) by reflexivity.
  unfold Run. cbn [VM.code]. cbv zeta.
  change (5 + k)%nat with (S (S (S (S (S k))))).
  rewrite dispatch_step.
  replace (step _ _ mem)
    with (OK (E:=Fault) (Continue
                (mkVM [code] [] [VMFrame.mk 1 0 0 3 None]
                   [VMNull; VMTensor c; VMTensor x; VMTensor y; VMTensor c] 0
                   (Some (Bytecode.instructions code)) 1 1) mem)) by reflexivity.
  rewrite dispatch_step.
  replace (step _ _ mem)
    with (OK (E:=Fault) (Continue
                (mkVM [code] [] [VMFrame.mk 1 0 0 3 None]
                   [VMNull; VMTensor c; VMTensor x; VMTensor y] 0
                   (Some (Bytecode.instructions code)) (if b =? 0 then 3 else 2) 1) mem)).
  2: { unfold step. simpl. rewrite Hcond. simpl. by destruct (b =? 0). }
  destruct (b =? 0); eexists.
  - rewrite dispatch_step.
    replace (step _ _ mem)
      with (OK (E:=Fault) (Continue
                  (mkVM [code] [] [VMFrame.mk 1 0 0 3 None]
                     [VMNull; VMTensor c; VMTensor x; VMTensor y; VMTensor y] 0
                     (Some (Bytecode.instructions code)) 4 1) mem)) by reflexivity.
    rewrite dispatch_step. reflexivity.
  - rewrite dispatch_step.
    replace (step _ _ mem)
      with (OK (E:=Fault) (Continue
                  (mkVM [code] [] [VMFrame.mk 1 0 0 3 None]
                     [VMNull; VMTensor c; VMTensor x; VMTensor y; VMTensor x] 0
                     (Some (Bytecode.instructions code)) 3 1) mem)) by reflexivity.
    rewrite dispatch_step.
    replace (step _ _ mem)
      with (OK (E:=Fault) (Continue
                  (mkVM [code] [] [VMFrame.mk 1 0 0 3 None]
                     [VMNull; VMTensor c; VMTensor x; VMTensor y; VMTensor x;
                      VMTensor y] 0
                     (Some (Bytecode.instructions code)) 4 1) mem)) by reflexivity.
    rewrite dispatch_step. reflexivity.
Qed.

Lemma choose_returns_third_argument_witness :
  let mem := [mkBuffer [] Bool (Some [1]); mkBuffer [1] Examples.float32 (Some [7]);
              mkBuffer [1] Examples.float32 (Some [9])] in
  exists vm,
    Linker.CompileModule Examples.engine [("main"%string, choose)] = OK vm
    /\ functions vm = [mkVMFunction 3 [Push 0; If 1 2; Push 1; Push 2; Ret]]
    /\ exists vm',
        Invoke 5 vm mem (mkVMFunction 3 [Push 0; If 1 2; Push 1; Push 2; Ret])
          [VMTensor 0%nat; VMTensor 1%nat; VMTensor 2%nat]
        = Finished (VMTensor 2%nat, vm', mem).
Proof.
  intros mem.
  apply (choose_returns_third_argument Examples.engine "main"%string mem
           0%nat 1%nat 2%nat (mkBuffer [] Bool (Some [1])) 1 [] 0);
    reflexivity.
Defined.

End ConditionalRun.

(** ** More on the inliner *)

Section InlinerMore.
Import IR Inliner Analysis.

Lemma var_map_insert_grows (v : Var) (e : Expr) (m : gmap Var Expr) :
  m ⊆ var_map_insert v e m.
Proof.
  unfold var_map_insert. destruct (m !! v) eqn:Hv; [done |].
  by apply insert_subseteq.
Qed.

(** X17.  A traversal only adds to [var_map]: every binding present
    before it is still there, with the same expression, after it. *)
Theorem VisitExpr_keeps_bindings (e : Expr) :
  forall (m m' : gmap Var Expr) (e' : Expr),
  VisitExpr m e = Some (e', m') -> m ⊆ m'.
Proof.
  induction e as [v|g|v value body IHv IHb|c t f IHc IHt IHf
                 |ps body rt tps prim IHb|op args attrs targs IHop IHargs]
    using Expr_induction; intros m m' e' H.
  - simpl in H. by injection H as <- <-.
  - simpl in H. by injection H as <- <-.
  - simpl in H.
    destruct (VisitExpr m value) as [[value' m1]|] eqn:Hv; [| discriminate].
    destruct (VisitExpr _ body) as [[body' m2]|] eqn:Hb; [| discriminate].
    injection H as <- <-.
    etrans; [eapply IHv, Hv |]. etrans; [apply var_map_insert_grows |].
    eapply IHb, Hb.
  - simpl in H.
    destruct (VisitExpr m c) as [[c' m1]|] eqn:Hc; [| discriminate].
    destruct (VisitExpr m1 t) as [[t' m2]|] eqn:Ht; [| discriminate].
    destruct (VisitExpr m2 f) as [[f' m3]|] eqn:Hf; [| discriminate].
    injection H as <- <-.
    etrans; [eapply IHc, Hc |]. etrans; [eapply IHt, Ht |]. eapply IHf, Hf.
  - simpl in H. destruct prim; [by injection H as <- <- |].
    destruct (VisitExpr m body) as [[body' m1]|] eqn:Hb; [| discriminate].
    injection H as <- <-. eapply IHb, Hb.
  - rewrite inline_call_unfold in H.
    destruct (collapse_chain m op) as [r|]; [| discriminate].
    destruct (inlined_call r args attrs targs); [by injection H as <- <- |].
    destruct (VisitExpr m op) as [[op' m1]|] eqn:Hop; [| discriminate].
    destruct (visit_args m1 args) as [[args' m2]|] eqn:Ha; [| discriminate].
    injection H as <- <-.
    etrans; [eapply IHop, Hop |].
    clear Hop IHop. revert m1 m2 args' Ha.
    induction IHargs as [|a args Harg _ IH]; intros m1 m2 args' Ha; simpl in Ha.
    + by injection Ha as <- <-.
    + destruct (VisitExpr m1 a) as [[a' ma]|] eqn:Hva; [| discriminate].
      destruct (visit_args ma args) as [[rest' mb]|] eqn:Hvr; [| discriminate].
      injection Ha as <- <-.
      etrans; [eapply Harg, Hva |]. eapply IH, Hvr.
Qed.

Lemma VisitExpr_keeps_bindings_witness :
  let m : gmap Var Expr := <[1%nat := Examples.prim]> ∅ in
  exists e' m',
    VisitExpr m (ELet 1%nat (EVar 0%nat) (ELet 2%nat (EVar 1%nat) (EVar 2%nat)))
    = Some (e', m')
    /\ m ⊆ m'.
Proof.
  intros m. do 2 eexists. split; [vm_compute; reflexivity |].
  eapply (VisitExpr_keeps_bindings
            (ELet 1%nat (EVar 0%nat) (ELet 2%nat (EVar 1%nat) (EVar 2%nat))) m).
  vm_compute. reflexivity.
Defined.

Lemma calls_ok_args (args : list Expr) :
  (fix all (l : list Expr) : bool :=
     match l with
     | [] => true
     | a :: rest => calls_ok a && all rest
     end) args = true
  -> Forall (fun a => calls_ok a = true) args.
Proof.
  induction args as [|a args IH]; intros H; constructor;
    apply andb_true_iff in H as [Ha Hr]; auto.
Qed.

(** X18.  An expression in which no call has a variable as its operator
    goes through the traversal unchanged, from any [var_map], and the
    traversal returns. *)
Theorem VisitExpr_fixes_inlined (e : Expr) :
  forall m : gmap Var Expr,
  calls_ok e = true -> exists m', VisitExpr m e = Some (e, m').
Proof.
  induction e as [v|g|v value body IHv IHb|c t f IHc IHt IHf
                 |ps body rt tps prim IHb|op args attrs targs IHop IHargs]
    using Expr_induction; intros m Hok; simpl in Hok.
  - simpl. eauto.
  - simpl. eauto.
  - apply andb_true_iff in Hok as [Hv Hb]. simpl.
    destruct (IHv m Hv) as [m1 ->].
    destruct (IHb (var_map_insert v value m1) Hb) as [m2 ->]. eauto.
  - apply andb_true_iff in Hok as [Hok Hf]. apply andb_true_iff in Hok as [Hc Ht].
    simpl. destruct (IHc m Hc) as [m1 ->]. destruct (IHt m1 Ht) as [m2 ->].
    destruct (IHf m2 Hf) as [m3 ->]. eauto.
  - simpl. destruct prim; [eauto |]. destruct (IHb m Hok) as [m1 ->]. eauto.
  - apply andb_true_iff in Hok as [Hok Hargs].
    apply andb_true_iff in Hok as [Hvar Hop].
    apply negb_true_iff in Hvar. apply calls_ok_args in Hargs.
    rewrite inline_call_unfold. unfold collapse_chain.
    rewrite collapse_not_var by done.
    destruct (inlined_call (Resolved op) args attrs targs) as [call'|] eqn:Hin.
    + apply inlined_call_Some in Hin as (x & [= <-] & _ & ->). eauto.
    + destruct (IHop m Hop) as [m1 ->].
      assert (Ha : exists m2, visit_args m1 args = Some (args, m2)).
      { clear Hin Hop IHop. revert m1.
        induction IHargs as [|a args Harg _ IH]; intros m1; simpl; [eauto |].
        apply Forall_cons in Hargs as [Hoka Hargs].
        destruct (Harg m1 Hoka) as [ma ->].
        destruct (IH Hargs ma) as [mb ->]. eauto. }
      destruct Ha as [m2 ->]. eauto.
Qed.

Lemma VisitExpr_fixes_inlined_witness :
  let e := ELet 1%nat Examples.prim (ECall Examples.prim [EVar 0%nat] 0%nat []) in
  exists m', VisitExpr ∅ e = Some (e, m').
Proof.
  intros e. apply (VisitExpr_fixes_inlined e ∅). reflexivity.
Defined.

Lemma let_free_args (args : list Expr) :
  (fix all (l : list Expr) : bool :=
     match l with
     | [] => true
     | a :: rest => let_free a && all rest
     end) args = true
  -> Forall (fun a => let_free a = true) args.
Proof.
  induction args as [|a args IH]; intros H; constructor;
    apply andb_true_iff in H as [Ha Hr]; auto.
Qed.

Lemma VisitExpr_let_free (e : Expr) :
  let_free e = true -> VisitExpr ∅ e = Some (e, ∅).
Proof.
  induction e as [v|g|v value body IHv IHb|c t f IHc IHt IHf
                 |ps body rt tps prim IHb|op args attrs targs IHop IHargs]
    using Expr_induction; intros Hlf; simpl in Hlf; try discriminate Hlf.
  - reflexivity.
  - reflexivity.
  - apply andb_true_iff in Hlf as [Hlf Hf]. apply andb_true_iff in Hlf as [Hc Ht].
    simpl. by rewrite (IHc Hc), (IHt Ht), (IHf Hf).
  - simpl. destruct prim; [done |]. by rewrite (IHb Hlf).
  - apply andb_true_iff in Hlf as [Hop Hargs]. apply let_free_args in Hargs.
    rewrite inline_call_unfold.
    assert (Ha : visit_args ∅ args = Some (args, ∅)).
    { clear Hop IHop. induction IHargs as [|a args Harg _ IH]; simpl; [done |].
      apply Forall_cons in Hargs as [Hlfa Hargs].
      by rewrite (Harg Hlfa), (IH Hargs). }
    destruct (collapse_chain ∅ op) as [r|] eqn:Hr.
    + destruct (inlined_call r args attrs targs) as [call'|] eqn:Hin.
      * apply inlined_call_Some in Hin as (x & -> & _ & ->).
        destruct op; unfold collapse_chain in Hr; simpl in Hr;
          rewrite ?lookup_empty in Hr; try discriminate Hr;
          by injection Hr as <-.
      * by rewrite (IHop Hop), Ha.
    + destruct op; unfold collapse_chain in Hr; simpl in Hr;
        rewrite ?lookup_empty in Hr; discriminate Hr.
Qed.

(** X19.  On a module with distinct names whose function bodies hold no
    let-binding, the inliner rewrites nothing: every function comes back
    with its body passed through dead-code elimination, and nothing
    else changed. *)
Theorem InlinePrimitives_without_lets (dce : Expr -> Expr) (m : Module) :
  NoDup (map fst m) ->
  Forall (fun gf => let_free (body (snd gf)) = true) m ->
  InlinePrimitives_with dce m
  = Some (map (fun gf =>
                 (fst gf,
                  mkFunction (params (snd gf)) (dce (body (snd gf)))
                    (ret_type (snd gf)) (type_params (snd gf))
                    (primitive (snd gf)))) m).
Proof.
  intros Hnd Hlf. rewrite InlinePrimitives_in_order by done.
  assert (H : inline_in_order dce ∅ m
              = Some (map (fun gf =>
                             (fst gf,
                              mkFunction (params (snd gf)) (dce (body (snd gf)))
                                (ret_type (snd gf)) (type_params (snd gf))
                                (primitive (snd gf)))) m, ∅)).
  { clear Hnd. induction Hlf as [|[g f] fs Hf _ IH]; [reflexivity |].
    simpl in *. unfold Inline. rewrite (VisitExpr_let_free _ Hf). by rewrite IH. }
  by rewrite H.
Qed.

Lemma InlinePrimitives_without_lets_witness :
  InlinePrimitives [("main"%string, Examples.apply_parameter)]
  = Some [("main"%string, Examples.apply_parameter)].
Proof.
  apply (InlinePrimitives_without_lets DeadCodeElimination
           [("main"%string, Examples.apply_parameter)]).
  - compute_done.
  - repeat constructor.
Defined.

(** X20.  A variable bound to itself makes the loop of the call visitor
    turn for ever: no number of iterations brings it out, and the
    traversal of [let v = v; v(args)] does not return. *)
Theorem self_alias_never_resolves (m : gmap Var Expr) (v : Var)
    (args : list Expr) (attrs : nat) (targs : list RelayType) :
  m !! v = None ->
  (forall fuel, collapse fuel (<[v := EVar v]> m) (EVar v) = None)
  /\ VisitExpr m (ELet v (EVar v) (ECall (EVar v) args attrs targs)) = None.
Proof.
  intros Hv.
  assert (Hloop : forall fuel, collapse fuel (<[v := EVar v]> m) (EVar v) = None).
  { induction fuel as [|fuel IH]; simpl; rewrite lookup_insert_eq; [done | exact IH]. }
  split; [exact Hloop |].
  simpl. unfold var_map_insert. rewrite Hv.
  change (VisitExpr (<[v:=EVar v]> m) (ECall (EVar v) args attrs targs))
    with (match collapse_chain (<[v:=EVar v]> m) (EVar v) with
          | None => None
          | Some r =>
              match inlined_call r args attrs targs with
              | Some call' => Some (call', <[v:=EVar v]> m)
              | None =>
                  match VisitExpr (<[v:=EVar v]> m) (EVar v) with
                  | None => None
                  | Some (op', m1) =>
                      match visit_args m1 args with
                      | None => None
                      | Some (args', m2) => Some (ECall op' args' attrs targs, m2)
                      end
                  end
              end
          end).
  unfold collapse_chain. by rewrite Hloop.
Qed.

Lemma self_alias_never_resolves_witness :
  VisitExpr ∅ (ELet 3%nat (EVar 3%nat) (ECall (EVar 3%nat) [EVar 0%nat] 0%nat []))
  = None.
Proof.
  apply (self_alias_never_resolves ∅ 3%nat [EVar 0%nat] 0%nat []). reflexivity.
Defined.

(** X21.  Whenever the loop of the call visitor ends, it has followed
    distinct entries of [var_map], hence no more of them than the map
    holds, and the bound built into [collapse_chain] gives that outcome. *)
Theorem alias_chain_is_bounded (fuel : nat) (m : gmap Var Expr) (op : Expr)
    (r : Collapsed) :
  collapse fuel m op = Some r ->
  exists vs,
    chain m op vs r /\ NoDup vs /\ length vs <= size m
    /\ collapse_chain m op = Some r.
Proof.
  intros H. apply collapse_chain_iff in H as (vs & Hc & _).
  exists vs. split; [done |]. split; [eapply chain_NoDup, Hc |].
  split; [eapply chain_bound, Hc |].
  apply collapse_chain_iff. exists vs. split; [done | eapply chain_bound, Hc].
Qed.

Lemma alias_chain_is_bounded_witness :
  let m : gmap Var Expr := <[2%nat := EVar 1%nat]> (<[1%nat := Examples.prim]> ∅) in
  exists vs,
    chain m (EVar 2%nat) vs (Resolved Examples.prim) /\ NoDup vs
    /\ length vs <= size m
    /\ collapse_chain m (EVar 2%nat) = Some (Resolved Examples.prim).
Proof.
  intros m. apply (alias_chain_is_bounded 5 m). vm_compute. reflexivity.
Defined.

Lemma inline_let_unfold (m : gmap Var Expr) (v : Var) (value body : Expr) :
  VisitExpr m (ELet v value body)
  = match VisitExpr m value with
    | None => None
    | Some (value', m1) =>
        match VisitExpr (var_map_insert v value' m1) body with
        | None => None
        | Some (body', m2) => Some (ELet v value' body', m2)
        end
    end.
Proof. reflexivity. Qed.

(** X22.  The rewriting announced at the head of the pass: with [p] and
    [q] not yet in [var_map] and [f] a primitive function literal,
    [let p = f; p(args)] becomes [let p = f; f(args)], and through an
    alias [let p = f; let q = p; q(args)] becomes
    [let p = f; let q = p; f(args)]; the arguments are left as they
    are. *)
Theorem primitive_is_inlined (m : gmap Var Expr) (p q : Var) (f : Expr)
    (args : list Expr) (attrs : nat) (targs : list RelayType) :
  is_primitive_function f = true ->
  m !! p = None -> m !! q = None -> p <> q ->
  VisitExpr m (ELet p f (ECall (EVar p) args attrs targs))
  = Some (ELet p f (ECall f args attrs targs), <[p := f]> m)
  /\ VisitExpr m (ELet p f (ELet q (EVar p) (ECall (EVar q) args attrs targs)))
     = Some (ELet p f (ELet q (EVar p) (ECall f args attrs targs)),
             <[q := EVar p]> (<[p := f]> m)).
Proof.
  intros Hf Hp Hq Hne.
  assert (Hself : forall m0, VisitExpr m0 f = Some (f, m0)).
  { intros m0. destruct f; try discriminate Hf. simpl in *. by rewrite Hf. }
  assert (Hnv : is_var f = false) by (destruct f; done).
  split.
  - rewrite inline_let_unfold, Hself. unfold var_map_insert. rewrite Hp.
    rewrite inline_call_unfold. unfold collapse_chain.
    rewrite map_size_insert_None by done. simpl collapse.
    rewrite lookup_insert_eq, collapse_not_var by done.
    simpl. by rewrite Hf.
  - rewrite inline_let_unfold, Hself. unfold var_map_insert at 1. rewrite Hp.
    rewrite inline_let_unfold. simpl (VisitExpr _ (EVar p)). cbv iota beta.
    unfold var_map_insert. rewrite lookup_insert_ne, Hq by done.
    rewrite inline_call_unfold. unfold collapse_chain.
    rewrite !map_size_insert_None by (by rewrite ?lookup_insert_ne).
    simpl collapse.
    rewrite lookup_insert_eq, lookup_insert_ne, lookup_insert_eq by done.
    rewrite collapse_not_var by done. simpl. by rewrite Hf.
Qed.

Lemma primitive_is_inlined_witness :
  VisitExpr ∅ (ELet 1%nat Examples.prim (ECall (EVar 1%nat) [EVar 0%nat] 0%nat []))
  = Some (ELet 1%nat Examples.prim (ECall Examples.prim [EVar 0%nat] 0%nat []),
          <[1%nat := Examples.prim]> ∅).
Proof.
  apply (primitive_is_inlined ∅ 1%nat 2%nat Examples.prim [EVar 0%nat] 0%nat []);
    [reflexivity | reflexivity | reflexivity | lia].
Defined.

Lemma inline_in_order_signatures (dce : Expr -> Expr) (fs : Module) :
  forall m fs' m', inline_in_order dce m fs = Some (fs', m') ->
  map (fun gf => signature (snd gf)) fs' = map (fun gf => signature (snd gf)) fs.
Proof.
  induction fs as [|[g f] fs IH]; intros m fs' m' H; simpl in H.
  - by injection H as <- <-.
  - unfold Inline in H.
    destruct (VisitExpr m (body f)) as [[b' m1]|]; [| discriminate].
    destruct (inline_in_order dce m1 fs) as [[rest' m2]|] eqn:Hrest; [| discriminate].
    injection H as <- <-. simpl. f_equal. eauto.
Qed.

(** X23.  On a module with distinct names the inliner keeps the names, in
    their order, and for every function its parameters, return type, type
    parameters and attributes: only bodies change. *)
Theorem InlinePrimitives_keeps_signatures (dce : Expr -> Expr) (m m1 : Module) :
  NoDup (map fst m) ->
  InlinePrimitives_with dce m = Some m1 ->
  map fst m1 = map fst m
  /\ map (fun gf => signature (snd gf)) m1 = map (fun gf => signature (snd gf)) m.
Proof.
  intros Hnd H. rewrite InlinePrimitives_in_order in H by done.
  destruct (inline_in_order dce ∅ m) as [[fs' m']|] eqn:E; [| discriminate].
  injection H as <-. split.
  - eapply inline_in_order_keys, E.
  - eapply inline_in_order_signatures, E.
Qed.

Lemma InlinePrimitives_keeps_signatures_witness :
  let m := [("main"%string, Examples.aliased_primitive);
            ("aux"%string, Examples.hidden_primitive)] in
  exists m1, InlinePrimitives m = Some m1 /\ map fst m1 = map fst m.
Proof.
  intros m. eexists. split; [vm_compute; reflexivity |].
  eapply (InlinePrimitives_keeps_signatures DeadCodeElimination m);
    [compute_done | vm_compute; reflexivity].
Defined.

End InlinerMore.

(** ** More on the printer and on the entry point *)

Section PrinterAndHost.
Import IR Bytecode Runtime Compiler VM Linker Host Analysis.
Local Open Scope Z_scope.

(** X24.  Two instructions printed alike have the same opcode, and two
    [Push] printed alike have the same operand: the text written for an
    instruction tells its opcode, and for a [Push] its stack index. *)
Theorem InstructionPrint_tells_opcode (a b : Instruction) (text : string) :
  InstructionPrint a = Some text ->
  InstructionPrint b = Some text ->
  op a = op b
  /\ forall s s', a = Push s -> b = Push s' -> s = s'.
Proof.
  intros Ha Hb. split.
  - destruct a, b; simpl in Ha, Hb; try reflexivity; try discriminate;
      rewrite <- Hb in Ha;
      apply (f_equal (fun o => match o with
                               | Some s => String.get 1 s
                               | None => None
                               end)) in Ha;
      vm_compute in Ha; discriminate Ha.
  - intros s s' -> ->. simpl in Ha, Hb. rewrite <- Hb in Ha.
    injection Ha as Ha. by apply (inj pretty).
Qed.

Lemma InstructionPrint_tells_opcode_witness :
  op (If 1 2) = op (If 1 2)
  /\ forall s s', If 1 2 = Push s -> If 1 2 = Push s' -> s = s'.
Proof.
  apply (InstructionPrint_tells_opcode (If 1 2) (If 1 2) "if 1 2invoke 2");
    reflexivity.
Defined.

(** X25.  The entry point turns away what is neither a function nor a
    module; and a module without functions compiles, after which the
    entry point reads the first entry of an empty function table. *)
Theorem testeval_rejects_empty_input (eng : Engine)
    (from_expr : Function -> Module) (fuel : nat) (mem : Memory)
    (vargs : list Value) :
  testeval eng from_expr fuel mem OtherRef vargs
  = RunFailed (Fatal "expected function or module")
  /\ CompileModule eng [] = OK new_vm
  /\ testeval eng from_expr fuel mem (ModuleRef []) vargs
     = RunFailed (Undefined "read outside the vector").
Proof. repeat split. Qed.

(** X26.  Called with a number of tensors that differs from the number
    of parameters of the first function, the entry point stops on the
    layout check of [InvokeGlobal], before any instruction has run. *)
Theorem testeval_checks_argument_count (eng : Engine)
    (from_expr : Function -> Module) (fuel : nat) (mem : Memory)
    (m : Module) (vm : VirtualMachine) (main : VMFunction)
    (vargs : list Value) (vm_args : list VMObject) :
  CompileModule eng m = OK vm ->
  functions vm !! 0%nat = Some main ->
  convert_args vargs = OK vm_args ->
  0 <= params main < SizeT.modulus ->
  SizeT.size vm_args + 1 < SizeT.modulus ->
  params main <> SizeT.size vm_args ->
  testeval eng from_expr fuel mem (ModuleRef m) vargs
  = RunFailed (Fatal "stack_start + func.params + 1 == stack.size()").
Proof.
  intros Hc Hmain Ha Hp Hsize Hne.
  assert (Hstack : stack vm = []).
  { unfold CompileModule in Hc.
    destruct (compile_functions eng m [] _) as [r|]; simpl in Hc; [| discriminate].
    destruct (PopulatePackedFuncMap eng _ _) as [pf|]; simpl in Hc; [| discriminate].
    by injection Hc as <-. }
  unfold testeval. simpl. rewrite Hc. rewrite read_nonneg by lia.
  change (Z.to_nat 0) with 0%nat. rewrite Hmain, Ha.
  unfold Invoke.
  rewrite InvokeGlobal_unfold
    by (rewrite ?Hstack; unfold SizeT.size in *; simpl; lia).
  by destruct (Z.eqb_spec (params main) (SizeT.size vm_args)).
Qed.

Lemma testeval_checks_argument_count_witness :
  testeval Examples.engine Examples.from_expr 10 []
    (ModuleRef [("main"%string, Examples.identity)])
    [TensorValue 0%nat; TensorValue 1%nat]
  = RunFailed (Fatal "stack_start + func.params + 1 == stack.size()").
Proof.
  eapply (testeval_checks_argument_count Examples.engine Examples.from_expr 10 []
            [("main"%string, Examples.identity)]);
    [vm_compute; reflexivity | reflexivity | reflexivity
    | split; [simpl; lia | reflexivity] | reflexivity | vm_compute; lia].
Defined.

End PrinterAndHost.

Section PrimitiveCallRun.
Import IR Bytecode Runtime Compiler VM Analysis.
Local Open Scope Z_scope.

(** X27.  A function of two parameters whose body calls a two-parameter
    primitive on them compiles to
    [push 0; push 1; alloc_tensor; invoke_packed 0 3; ret] with the one
    lowered kernel.  Run on two tensors, that code hands the kernel the two
    arguments in order followed by a fresh output tensor, and returns the
    output tensor with the memory the kernel left. *)
Theorem binary_primitive_call (eng : Engine) (x y p q : Var) (pbody : Expr)
    (prt rt : RelayType) (ptps tps : list nat) (attrs : nat)
    (targs : list RelayType) (sh : list IndexExpr) (dt : DataType)
    (shape : list Z) (lowered : LoweredFunc) (kernel : PackedFunc)
    (mem mem' : Memory) (a b : NDArray) (k : nat) :
  let prim := EFunction [p; q] pbody prt ptps true in
  let call := ECall prim [EVar x; EVar y] attrs targs in
  let code := mkVMFunction 2
                [Push 0; Push 1; AllocTensor shape dt; Bytecode.InvokePacked 0 3; Ret] in
  x <> y ->
  checked_type eng call = Some (TensorType sh dt) ->
  static_shape sh = OK shape ->
  Lower eng prim = Some [lowered] ->
  kernel (mem ++ [mkBuffer shape dt None]) [a; b; length mem] = Some mem' ->
  CompileFunc eng (mkFunction [x; y] call rt tps false) = OK ([lowered], code)
  /\ exists vm',
       Invoke (5 + k) (mkVM [code] [kernel] [] [] 0 None 0 0) mem code
         [VMTensor a; VMTensor b]
       = Finished (VMTensor (length mem), vm', mem').
Proof.
  intros prim call code Hxy Hty Hsh Hlow Hk. split.
  - unfold CompileFunc, as_expr. simpl.
    unfold bind_param. simpl. rewrite lookup_empty. simpl.
    rewrite lookup_insert_ne, lookup_empty by done. simpl.
    rewrite lookup_insert_ne, lookup_insert_eq by done. simpl.
    rewrite lookup_insert_eq. simpl.
    unfold emit_call. fold prim. fold call. rewrite Hty, Hsh. simpl.
    rewrite Hlow. reflexivity.
  - eexists. unfold Invoke.
    replace (InvokeGlobal _ code _)
      with (OK (E:=Fault)
              (mkVM [code] [kernel] [VMFrame.mk 1 0 0 2 None]
                 [VMNull; VMTensor a; VMTensor b] 0
                 (Some (Bytecode.instructions code)) 0 1)) by reflexivity.
    unfold Run. cbn [VM.code]. cbv zeta.
    change (5 + k)%nat with (S (S (S (S (S k))))).
    rewrite dispatch_step.
    replace (step _ _ mem)
      with (OK (E:=Fault)
              (Continue
                 (mkVM [code] [kernel] [VMFrame.mk 1 0 0 2 None]
                    [VMNull; VMTensor a; VMTensor b; VMTensor a] 0
                    (Some (Bytecode.instructions code)) 1 1) mem)) by reflexivity.
    rewrite dispatch_step.
    replace (step _ _ mem)
      with (OK (E:=Fault)
              (Continue
                 (mkVM [code] [kernel] [VMFrame.mk 1 0 0 2 None]
                    [VMNull; VMTensor a; VMTensor b; VMTensor a; VMTensor b] 0
                    (Some (Bytecode.instructions code)) 2 1) mem)) by reflexivity.
    rewrite dispatch_step.
    replace (step _ _ mem)
      with (OK (E:=Fault)
              (Continue
                 (mkVM [code] [kernel] [VMFrame.mk 1 0 0 2 None]
                    [VMNull; VMTensor a; VMTensor b; VMTensor a; VMTensor b;
                     VMTensor (length mem)] 0
                    (Some (Bytecode.instructions code)) 3 1)
                 (mem ++ [mkBuffer shape dt None]))) by reflexivity.
    rewrite dispatch_step.
    replace (step _ _ (mem ++ [mkBuffer shape dt None]))
      with (OK (E:=Fault)
              (Continue
                 (mkVM [code] [kernel] [VMFrame.mk 1 0 0 2 None]
                    [VMNull; VMTensor a; VMTensor b; VMTensor (length mem)] 0
                    (Some (Bytecode.instructions code)) 4 1) mem')).
    2: { unfold step. simpl. unfold InvokePacked. simpl.
         match goal with
         | |- context [kernel ?m ?l] =>
             replace (kernel m l) with (Some mem') by (symmetry; exact Hk)
         end.
         reflexivity. }
    rewrite dispatch_step. reflexivity.
Qed.

Lemma binary_primitive_call_witness :
  let prim := Examples.primitive_of [0%nat; 1%nat] in
  let call := ECall prim [EVar 0%nat; EVar 1%nat] 0%nat [] in
  let code := mkVMFunction 2
                [Push 0; Push 1; AllocTensor [4] Examples.float32;
                 Bytecode.InvokePacked 0 3; Ret] in
  CompileFunc Examples.engine (mkFunction [0%nat; 1%nat] call Examples.tensor4 [] false)
  = OK (["fused_kernel"%string], code)
  /\ exists vm',
       Invoke 5 (mkVM [code] [Examples.idle_kernel] [] [] 0 None 0 0) [] code
         [VMTensor 7%nat; VMTensor 8%nat]
       = Finished (VMTensor 0%nat, vm', [mkBuffer [4] Examples.float32 None]).
Proof.
  intros prim call code.
  apply (binary_primitive_call Examples.engine 0%nat 1%nat 0%nat 1%nat (EVar 0%nat)
           Examples.tensor4 Examples.tensor4 [] [] 0%nat [] [IntImm 4]
           Examples.float32 [4] "fused_kernel"%string Examples.idle_kernel
           [] [mkBuffer [4] Examples.float32 None] 7%nat 8%nat 0);
    [lia | reflexivity | reflexivity | reflexivity | reflexivity].
Defined.

End PrimitiveCallRun.

(** ** Calls on let-bound callees, and a second application *)

Section ScopeFacts.
Import IR Inliner Scope.










(** *** Dead-code elimination *)










(** *** The module *)



(** X28.  When the loop over [var_map] ends on a primitive function
    literal or a global reference, the call is rebuilt on it with the
    arguments as they were: they are not visited, so a call inside them
    is left as it is, and [var_map] is unchanged. *)
Theorem inlined_call_keeps_arguments (m : gmap Var Expr) (op x : Expr)
    (args : list Expr) (attrs : nat) (targs : list RelayType) :
  collapse_chain m op = Some (Resolved x) ->
  ends_in_callee (Resolved x) = true ->
  VisitExpr m (ECall op args attrs targs) = Some (ECall x args attrs targs, m).
Proof.
  intros Hc Hx. rewrite inline_call_unfold, Hc.
  destruct (inlined_call (Resolved x) args attrs targs) as [call'|] eqn:Hin.
  - by apply inlined_call_Some in Hin as (y & [= <-] & _ & ->).
  - apply inlined_call_None in Hin. congruence.
Qed.

(** *** A second application *)





End ScopeFacts.

Section ScopeExamples.
Import IR Inliner Scope Examples.



Lemma inlined_call_keeps_arguments_witness :
  let m : gmap Var Expr := <[1%nat := prim]> ∅ in
  let inner := ECall (EVar 1%nat) [EVar 0%nat] 0%nat [] in
  VisitExpr m (ECall (EVar 1%nat) [inner] 0%nat [])
  = Some (ECall prim [inner] 0%nat [], m).
Proof.
  intros m inner.
  apply (inlined_call_keeps_arguments m (EVar 1%nat) prim [inner] 0%nat []);
    reflexivity.
Defined.

(** On [fn (x) { let p = prim; p(p(x)) }] the outer call is rewritten and
    the inner one, an argument of it, is returned as it was. *)
Lemma nested_call_keeps_inner_call :
  exists m',
    InlinePrimitives [("main"%string, nested_call)] = Some m'
    /\ map (fun gf => body (snd gf)) m'
       = [ELet 1%nat prim
            (ECall prim [ECall (EVar 1%nat) [EVar 0%nat] 0%nat []] 0%nat [])]
    /\ module_calls_resolved m' = true
    /\ module_calls_ok m' = false.
Proof. eexists. repeat split; vm_compute; reflexivity. Qed.

(** Both conditions on the lets are needed: a let-expression as the value
    of a let hides a primitive from the traversal until dead-code
    elimination has run, and of two lets on one variable [var_map] keeps
    the first. *)
Lemma bound_call_left_without_conditions :
  (module_flat [("main"%string, hidden_primitive)] = false
   /\ exists m', InlinePrimitives [("main"%string, hidden_primitive)] = Some m'
                 /\ module_calls_resolved m' = false)
  /\ (~ NoDup (module_binders [("main"%string, rebound_variable)])
      /\ exists m', InlinePrimitives [("main"%string, rebound_variable)] = Some m'
                    /\ module_calls_resolved m' = false).
Proof.
  split; split.
  - reflexivity.
  - eexists. split; vm_compute; reflexivity.
  - intros H. vm_compute in H. apply NoDup_cons in H as [H _].
    apply H. left.
  - eexists. split; vm_compute; reflexivity.
Qed.

End ScopeExamples.

(** ** The shape in the text of [AllocTensor] *)

Section PrinterShapes.
Import IR Bytecode.
Local Open Scope Z_scope.
Local Open Scope string_scope.

Lemma print_shape_snoc (shape : list Z) (d : Z) :
  print_shape (shape ++ [d]) = print_shape shape +:+ pretty d +:+ ", ".
Proof.
  induction shape as [|d0 shape IH]; [reflexivity |].
  change (print_shape ((d0 :: shape) ++ [d]))
    with (pretty d0 +:+ ", " +:+ print_shape (shape ++ [d])).
  change (print_shape (d0 :: shape)) with (pretty d0 +:+ ", " +:+ print_shape shape).
  by rewrite IH, !append_assoc.
Qed.

(** X29.  The [AllocTensor] case writes [", "] after every extent, the
    last one included: the text of a shape that ends in [d] ends in
    [d, ) <dtype>], and a vector of four floats is printed as
    [alloc_tensor(4, ) float32], where the specification writes
    [alloc_tensor(4,) float32]. *)
Theorem InstructionPrint_AllocTensor_separator (shape : list Z) (d : Z)
    (dtype : DataType) :
  InstructionPrint (AllocTensor (shape ++ [d]) dtype)
  = Some ("alloc_tensor(" +:+ print_shape shape +:+ pretty d +:+ ", ) "
          +:+ print_dtype dtype)
  /\ InstructionPrint (AllocTensor [4] (mkDataType kDLFloat 32 1))
     = Some "alloc_tensor(4, ) float32"
  /\ spec_text (AllocTensor [4] (mkDataType kDLFloat 32 1))
     = "alloc_tensor(4,) float32".
Proof.
  split; [| split; reflexivity].
  unfold InstructionPrint. rewrite print_shape_snoc. f_equal.
  change ("alloc_tensor" +:+ "(" +:+ ?x) with ("alloc_tensor(" +:+ x).
  by rewrite !append_assoc.
Qed.

End PrinterShapes.
